(** * smart-widget-builder: validation, encoding and event collection

    A shallow embedding of the helper functions ([helpers.js]) and of the
    classes of [Library/lib.js], followed by the properties of the
    component-set validator, the tag encoder, the field validators and
    the quiet-period event collector.

    Conventions of the embedding:
    - a JavaScript value is a [value]; class instances are constructors
      of [value] carrying a record of their fields, so that
      [x instanceof C] is a match on the constructor;
    - code that can throw returns a [completion]; a rejected promise of
      an [async] function is a [Throw] as well;
    - the collector, which lives on timers and callbacks, is a step
      function on an explicit state, driven by a small scheduler over
      arrival times in milliseconds. *)

From stdpp Require Import base numbers list strings gmap sorting.
From Stdlib Require Import Ascii.

#[local] Set Warnings "-register-all".
#[local] Open Scope Z_scope.

(** ** Numbers

    A JavaScript number is an IEEE double. The finite ones are dyadic
    rationals, and every dyadic rational is either an integer or, in
    exactly one way, [(2m+1) / 2^e] with [e >= 1]; the two zeros are
    identified, which none of the operations used below can tell apart.
    The type is larger than the doubles (no bound on the size), so what
    holds for every [number] holds for every double. *)

Inductive number : Type :=
  | NaN
  | Infinity (negative : bool)
  | Integer (z : Z)
  | Fraction (m : Z) (e : positive).

#[global] Instance number_eq_dec : EqDecision number.
Proof. solve_decision. Defined.

Definition of_nat (n : nat) : number := Integer (Z.of_nat n).

(** [n / 2^e] brought to its canonical form. *)
Fixpoint dyadic (n : Z) (e : nat) : number :=
  match e with
  | O => Integer n
  | S e' =>
      if Z.even n then dyadic (n / 2) e'
      else Fraction ((n - 1) / 2) (Pos.of_succ_nat e')
  end.

(** Numerator and binary exponent of a finite number. *)
Definition numerator (x : number) : Z :=
  match x with
  | Integer z => z
  | Fraction m _ => 2 * m + 1
  | _ => 0
  end.

Definition exponent (x : number) : nat :=
  match x with
  | Fraction _ e => Pos.to_nat e
  | _ => O
  end.

(** [a - b]. On finite operands this is the exact difference; the double
    that JavaScript computes is the nearest one, which has the same sign
    and is zero exactly when the exact difference is. Only the sign is
    ever looked at (by [Array.prototype.sort]). *)
Definition minus (a b : number) : number :=
  match a, b with
  | NaN, _ | _, NaN => NaN
  | Infinity s, Infinity s' => if bool_decide (s = s') then NaN else Infinity s
  | Infinity s, _ => Infinity s
  | _, Infinity s => Infinity (negb s)
  | _, _ =>
      let e := (exponent a `max` exponent b)%nat in
      dyadic (numerator a * 2 ^ Z.of_nat (e - exponent a)
              - numerator b * 2 ^ Z.of_nat (e - exponent b)) e
  end.

(** [x > 0] on numbers. *)
Definition is_positive (x : number) : bool :=
  match x with
  | NaN => false
  | Infinity s => negb s
  | Integer z => bool_decide (0 < z)
  | Fraction m _ => bool_decide (0 <= m)
  end.

(** [a === b] on numbers: [NaN] is not equal to itself. *)
Definition number_strict_equals (a b : number) : bool :=
  match a with
  | NaN => false
  | _ => bool_decide (a = b)
  end.

(** ** Completions *)

(** What is thrown, or what a promise is rejected with: an [Error] with
    its message, a [TypeError] of the engine, or a plain string. *)
Inductive exn : Type :=
  | Error (message : string)
  | TypeError
  | Rejection (reason : string).

Inductive completion (A : Type) : Type :=
  | Return (a : A)
  | Throw (e : exn).
Arguments Return {A} a.
Arguments Throw {A} e.

#[global] Instance completion_ret : MRet completion := @Return.
#[global] Instance completion_bind : MBind completion := fun A B f m =>
  match m with
  | Return a => f a
  | Throw e => Throw e
  end.

(** [a || b] and [a && b] where evaluating an operand may throw: the
    right operand is evaluated only when the left one does not decide. *)
Definition or_else (a b : completion bool) : completion bool :=
  x ← a; if x : bool then Return true else b.
Definition and_then (a b : completion bool) : completion bool :=
  x ← a; if x : bool then b else Return false.
Definition not_ (a : completion bool) : completion bool :=
  x ← a; Return (negb x).

Infix "|||" := or_else (at level 50, left associativity).
Infix "&&&" := and_then (at level 40, left associativity).

(** ** Values *)

Record Icon := { icon_url : string }.
Record Image := { image_url : string }.
Record Input := { input_label : string }.
Record Button := {
  button_index : number;
  button_label : string;
  button_type : string;
  button_url : string
}.

(** The kind, the content and the tags of an event; its other fields
    (id, author key, time, signature) are made by the signer. *)
Record NostrEvent := {
  kind : Z;
  content : string;
  tags : list (list string)
}.

(** The client of the event network, which is outside of the
    repository. Of an [NDK] instance with its signer the model keeps
    what signing does: [ndk_sign] takes the fields set on a new event
    and gives what [await ndkEvent.sign()] followed by
    [ndkEvent.rawEvent()] gives, the raw event as signed (the signer may
    add tags of its own to it), or the error the signing is rejected
    with. *)
Record NDK := { ndk_sign : NostrEvent → completion NostrEvent }.

Record SW := {
  sw_type : string;
  sw_relaySet : list string;
  sw_secretKey : string;
  sw_ndkInstance : NDK
}.

(** The values of the model: the primitive values, arrays, plain
    objects and the instances of the library's classes. [VObject] is a
    plain object (own enumerable string-keyed fields); as there are no
    function values, no object of the model has a method of its own. A
    [String] object, or an object that brings its own callable
    [startsWith], is not among the values of the model. *)
Inductive value : Type :=
  | VUndefined
  | VNull
  | VBool (b : bool)
  | VNumber (n : number)
  | VString (s : string)
  | VArray (items : list value)
  | VObject (fields : gmap string value)
  | VIcon (o : Icon)
  | VImage (o : Image)
  | VInput (o : Input)
  | VButton (o : Button)
  | VSW (o : SW)
  | VSWComponentsSet (components : value).

Definition typeof (v : value) : string :=
  match v with
  | VUndefined => "undefined"
  | VBool _ => "boolean"
  | VNumber _ => "number"
  | VString _ => "string"
  | _ => "object"
  end.

(** ToBoolean: what [!v] and [if (v)] look at. *)
Definition toBoolean (v : value) : bool :=
  match v with
  | VUndefined | VNull => false
  | VBool b => b
  | VNumber NaN => false
  | VNumber (Integer z) => negb (bool_decide (z = 0))
  | VNumber _ => true
  | VString s => negb (bool_decide (s = ""))
  | _ => true
  end.

(** [v === "s"] for a string literal. *)
Definition is_string (v : value) (s : string) : bool :=
  match v with
  | VString s' => bool_decide (s' = s)
  | _ => false
  end.

(** [[s1, ..., sn].includes(v)] for an array of string literals. *)
Definition includes (l : list string) (v : value) : bool :=
  existsb (is_string v) l.

(** [Array.isArray(v)]. *)
Definition isArray (v : value) : bool :=
  match v with
  | VArray _ => true
  | _ => false
  end.

(** ** Strings

    A [string] stands for a JavaScript string, one character per UTF-16
    code unit; [length] is the [.length] of the source. *)

(** [url.startsWith(p)] on the values of the model: only a string has
    the method; reading it off [undefined] or [null], or calling the
    [undefined] that every other value of the model yields for it, is a
    [TypeError]. *)
Definition startsWith (url : value) (p : string) : completion bool :=
  match url with
  | VString s => Return (String.prefix p s)
  | _ => Throw TypeError
  end.

(** [url.length > n]. *)
Definition length_gt (url : value) (n : nat) : completion bool :=
  match url with
  | VString s => Return (n <? String.length s)%nat
  | VArray l => Return (n <? length l)%nat
  | VUndefined | VNull => Throw TypeError
  | _ => Return false
  end.

(** *** Regular expressions, matched by derivatives *)

Inductive regex : Type :=
  | Empty
  | Eps
  | Class (p : ascii → bool)
  | Cat (r1 r2 : regex)
  | Alt (r1 r2 : regex)
  | Star (r : regex).

Fixpoint nullable (r : regex) : bool :=
  match r with
  | Empty => false
  | Eps => true
  | Class _ => false
  | Cat r1 r2 => nullable r1 && nullable r2
  | Alt r1 r2 => nullable r1 || nullable r2
  | Star _ => true
  end.

Fixpoint deriv (c : ascii) (r : regex) : regex :=
  match r with
  | Empty | Eps => Empty
  | Class p => if p c then Eps else Empty
  | Cat r1 r2 =>
      if nullable r1 then Alt (Cat (deriv c r1) r2) (deriv c r2)
      else Cat (deriv c r1) r2
  | Alt r1 r2 => Alt (deriv c r1) (deriv c r2)
  | Star r' => Cat (deriv c r') (Star r')
  end.

(** A match of [^r$] (no [m] flag: the whole string). *)
Fixpoint full_match (r : regex) (s : string) : bool :=
  match s with
  | EmptyString => nullable r
  | String c s' => full_match (deriv c r) s'
  end.

Definition Plus (r : regex) : regex := Cat r (Star r).
Definition AtLeast2 (r : regex) : regex := Cat r (Cat r (Star r)).

Definition in_range (lo hi c : ascii) : bool :=
  (N.leb (Ascii.N_of_ascii lo) (Ascii.N_of_ascii c)
   && N.leb (Ascii.N_of_ascii c) (Ascii.N_of_ascii hi))%bool.

Definition one_of (s : string) (c : ascii) : bool :=
  existsb (Ascii.eqb c) (String.list_ascii_of_string s).

Definition alpha (c : ascii) : bool :=
  in_range "a" "z" c || in_range "A" "Z" c.
Definition alnum (c : ascii) : bool :=
  alpha c || in_range "0" "9" c.

(** [/^[a-zA-Z0-9._%+-]+@[a-zA-Z0-9.-]+\.[a-zA-Z]{2,}$/] *)
Definition emailAddrRegex : regex :=
  Cat (Plus (Class (fun c => alnum c || one_of "._%+-" c)))
  (Cat (Class (one_of "@"))
  (Cat (Plus (Class (fun c => alnum c || one_of ".-" c)))
  (Cat (Class (one_of "."))
       (AtLeast2 (Class alpha))))).

(** [emailAddrRegex.test(v)]: [test] first converts [v] to a string. A
    string is itself; an array of one element converts as that element
    does ([null] and [undefined] to the empty string); an array of
    several elements contains a comma, and every other value converts to
    a text without [@] ("undefined", "true", a numeral,
    "[object Object]"), neither of which the expression matches. *)
Fixpoint test_emailAddrRegex (v : value) : bool :=
  match v with
  | VString s => full_match emailAddrRegex s
  | VArray [x] => test_emailAddrRegex x
  | _ => false
  end.

(** ** Field validators ([helpers.js]) *)

(** The [{status, msg}] objects the validators return; [msg] is absent
    from the successful ones. *)
Record check := { status : bool; msg : option string }.

Definition passed : check := {| status := true; msg := None |}.
Definition failed (m : string) : check := {| status := false; msg := Some m |}.

(** [Error(c.msg)]: an absent message makes the empty one. *)
Definition Error_of (c : check) : exn := Error (default "" (msg c)).

Definition isTitleValid (title : value) : bool :=
  if negb (bool_decide (typeof title = "string")) then false else true.

Definition isURLValid (url type : value) : completion check :=
  c1 ← Return (negb (toBoolean type) || includes ["redirect"; "post"; "app"] type)
       &&& not_ (startsWith url "https://"
                 ||| startsWith url "http://"
                 ||| startsWith url "data:image/");
  if c1 : bool then Return (failed "Invalid URL") else
  c2 ← Return (is_string type "nostr")
       &&& not_ (startsWith url "nostr:"
                 ||| startsWith url "npub"
                 ||| startsWith url "nprofile"
                 ||| startsWith url "note1"
                 ||| startsWith url "nevent"
                 ||| startsWith url "naddr");
  if c2 : bool then Return (failed "Invalid nostr URL schema") else
  c3 ← Return (is_string type "zap")
       &&& not_ (Return (test_emailAddrRegex url)
                 ||| (startsWith url "lnurl" &&& length_gt url 32)
                 ||| (startsWith url "lnbc" &&& length_gt url 32));
  if c3 : bool then
    Return (failed "Invalid zap URL, it must be a valid email address, lnurl* address or an lnbc* invoice")
  else Return passed.

(** ** Arrays *)

(** [[...new Set(arr)]]: the elements of [arr] in the order of their
    first occurrence. A [Set] compares with SameValueZero, which on
    [number] and on [string] is equality. *)
Fixpoint unique {A} `{EqDecision A} (arr : list A) : list A :=
  match arr with
  | [] => []
  | x :: arr' => x :: filter (λ y, y ≠ x) (unique arr')
  end.

(** [arr.sort(comparefn)]. The standard asks for a stable sort and, for
    a comparator that is a consistent ordering, leaves one possible
    result, which insertion from the right computes; with an
    inconsistent comparator the order is up to the engine. A result [v]
    of the comparator that is [NaN] counts as zero; the first argument
    goes after the second exactly when [v > 0]. *)
Section Sort.
Context {A : Type} (comparefn : A → A → number).

Fixpoint insert (x : A) (l : list A) : list A :=
  match l with
  | [] => [x]
  | y :: l' =>
      if is_positive (comparefn x y) then y :: insert x l'
      else x :: y :: l'
  end.

Fixpoint sort (l : list A) : list A :=
  match l with
  | [] => []
  | x :: l' => insert x (sort l')
  end.
End Sort.

(** [arr.every((x, i) => p x i)], the index starting at [i]. *)
Fixpoint every_from {A} (p : A → nat → bool) (i : nat) (arr : list A) : bool :=
  match arr with
  | [] => true
  | x :: arr' => p x i && every_from p (S i) arr'
  end.

Definition every {A} (p : A → nat → bool) (arr : list A) : bool :=
  every_from p 0 arr.

(** ** Component classes ([lib.js]) *)

Definition Icon_constructor (url : value) : completion Icon :=
  checkURL ← isURLValid url VUndefined;
  if negb (status checkURL) then Throw (Error_of checkURL) else
  match url with
  | VString s => Return {| icon_url := s |}
  | _ => Throw TypeError   (* not reached by a value of the model *)
  end.

Definition Image_constructor (url : value) : completion Image :=
  checkURL ← isURLValid url VUndefined;
  if negb (status checkURL) then Throw (Error_of checkURL) else
  match url with
  | VString s => Return {| image_url := s |}
  | _ => Throw TypeError   (* not reached by a value of the model *)
  end.

Definition Input_constructor (label : value) : completion Input :=
  match label with
  | VString s =>
      if bool_decide (s = "") then Throw (Error "Image url is required")
      else Return {| input_label := s |}
  | _ => Throw (Error "Image url is required")
  end.

Definition button_types : list string :=
  ["nostr"; "zap"; "redirect"; "post"; "app"].

(** The four guards of the constructor, in the order of the source: each
    [typeof x !== T] is the catch-all branch of the match on [x]. *)
Definition Button_constructor (index label type url : value) : completion Button :=
  match index with
  | VNumber n =>
      if number_strict_equals n (Integer 0)
      then Throw (Error "Button index must be an integer greater than 0")
      else
        match label with
        | VString l =>
            if negb (toBoolean label) then Throw (Error "Button label is required")
            else if negb (includes button_types type)
            then Throw (Error "Button type must be one these values (redirect | nostr | zap | post | app)")
            else
              match type, url with
              | VString t, VString u =>
                  if negb (toBoolean url) then Throw (Error "Button url is required")
                  else
                    checkURL ← isURLValid url type;
                    if negb (status checkURL) then Throw (Error_of checkURL)
                    else Return {| button_index := n; button_label := l;
                                   button_type := t; button_url := u |}
              | _, _ => Throw (Error "Button url is required")
              end
        | _ => Throw (Error "Button label is required")
        end
  | _ => Throw (Error "Button index must be an integer greater than 0")
  end.

(** [getProps()] of a component returns an object with the fields of the
    instance: the record itself. *)
Definition Button_getProps (b : Button) : Button := b.

(** ** The component-set validator ([helpers.js]) *)

Definition isConsecutiveArray (arr : list number) : bool :=
  let sorted := sort minus (unique arr) in
  if (6 <? length sorted)%nat then false
  else
    bool_decide (length sorted = length arr)
    && match sorted !! 0%nat with
       | Some x => number_strict_equals x (Integer 1)
       | None => false
       end
    && every (λ num i, number_strict_equals num (of_nat (i + 1))) sorted.

(** The five arrays the loop of the validator fills. *)
Record buckets := {
  icons : list Icon;
  images : list Image;
  inputs : list Input;
  buttons : list number;
  buttonTypes : list string
}.

Definition no_buckets : buckets :=
  {| icons := []; images := []; inputs := []; buttons := []; buttonTypes := [] |}.

(** The loop over the components; [None] is the early return on an
    element that is none of the four classes. *)
Fixpoint classify (instance : list value) (acc : buckets) : option buckets :=
  match instance with
  | [] => Some acc
  | comp :: rest =>
      match comp with
      | VIcon o =>
          classify rest {| icons := icons acc ++ [o]; images := images acc;
                           inputs := inputs acc; buttons := buttons acc;
                           buttonTypes := buttonTypes acc |}
      | VImage o =>
          classify rest {| icons := icons acc; images := images acc ++ [o];
                           inputs := inputs acc; buttons := buttons acc;
                           buttonTypes := buttonTypes acc |}
      | VInput o =>
          classify rest {| icons := icons acc; images := images acc;
                           inputs := inputs acc ++ [o]; buttons := buttons acc;
                           buttonTypes := buttonTypes acc |}
      | VButton o =>
          classify rest {| icons := icons acc; images := images acc;
                           inputs := inputs acc;
                           buttons := buttons acc ++ [button_index (Button_getProps o)];
                           buttonTypes := buttonTypes acc ++ [button_type (Button_getProps o)] |}
      | _ => None
      end
  end.

Definition msg_not_array : string :=
  "The components array must be a non empty array".
Definition msg_not_component : string :=
  "One or more elements are not a smart widget components".
Definition msg_no_image : string := "An image component is required".
Definition msg_images : string :=
  "The number of image components has exceeded the allowed limit (1 max)".
Definition msg_no_icon : string :=
  "An icon component is required for smart widgets with (action | tools) types".
Definition msg_icons : string :=
  "The number of icon components has exceeded the allowed limit (1 max)".
Definition msg_app_button : string :=
  "Only an image and a button of app type are required for smart widgets with (action | tools) types".
Definition msg_inputs : string :=
  "The number of input components has exceeded the allowed limit (1 max)".
Definition msg_buttons : string :=
  "The number of button components has either exceeded the allowed limit (6 max), or has a non consecutive indexes".

Definition isSWComponentsSetValid (instance type : value) : check :=
  match instance with
  | VArray [] => failed msg_not_array
  | VArray comps =>
      let isDefault := negb (includes ["action"; "tool"] type) in
      match classify comps no_buckets with
      | None => failed msg_not_component
      | Some b =>
          if bool_decide (length (images b) = 0%nat) then failed msg_no_image
          else if (1 <? length (images b))%nat then failed msg_images
          else if bool_decide (length (icons b) = 0%nat) && negb isDefault
          then failed msg_no_icon
          else if (1 <? length (icons b))%nat then failed msg_icons
          else if negb isDefault
                  && (0 <? length (inputs b))%nat
                  && (1 <? length (buttons b))%nat
                  && negb (bool_decide ("app" ∈ buttonTypes b))
          then failed msg_app_button
          else if (1 <? length (inputs b))%nat then failed msg_inputs
          else if (0 <? length (buttons b))%nat && negb (isConsecutiveArray (buttons b))
          then failed msg_buttons
          else passed
      end
  | _ => failed msg_not_array
  end.

(** ** The component set and its encoder ([lib.js]) *)

Record SWComponentsSet := { components : value }.

Definition SWComponentsSet_constructor
    (components smartWidgetInstance : value) : completion SWComponentsSet :=
  let type :=
    match smartWidgetInstance with
    | VSW w => VString (sw_type w)
    | _ => VString "basic"
    end in
  let checkComps := isSWComponentsSetValid components type in
  if negb (status checkComps) then Throw (Error_of checkComps)
  else Return {| components := components |}.

(** The elements that [for (let comp of v)] visits; the constructor
    leaves only arrays in [components]. *)
Definition elements_of (v : value) : list value :=
  match v with
  | VArray l => l
  | _ => []
  end.

Record button_entry := { index : number; metadata : list string }.

(** The four local arrays of [getProps]; icon tags are pushed onto
    [tag_images], as in the source, and [tag_icons] stays empty. *)
Record tag_buckets := {
  tag_icons : list (list string);
  tag_images : list (list string);
  tag_inputs : list (list string);
  tag_buttons : list button_entry
}.

Fixpoint encode (comps : list value) (acc : tag_buckets) : tag_buckets :=
  match comps with
  | [] => acc
  | comp :: rest =>
      match comp with
      | VIcon o =>
          encode rest {| tag_icons := tag_icons acc;
                         tag_images := tag_images acc ++ [["icon"; icon_url o]];
                         tag_inputs := tag_inputs acc;
                         tag_buttons := tag_buttons acc |}
      | VImage o =>
          encode rest {| tag_icons := tag_icons acc;
                         tag_images := tag_images acc ++ [["image"; image_url o]];
                         tag_inputs := tag_inputs acc;
                         tag_buttons := tag_buttons acc |}
      | VInput o =>
          encode rest {| tag_icons := tag_icons acc;
                         tag_images := tag_images acc;
                         tag_inputs := tag_inputs acc ++ [["input"; input_label o]];
                         tag_buttons := tag_buttons acc |}
      | VButton o =>
          encode rest {| tag_icons := tag_icons acc;
                         tag_images := tag_images acc;
                         tag_inputs := tag_inputs acc;
                         tag_buttons := tag_buttons acc ++
                           [{| index := button_index (Button_getProps o);
                               metadata := ["button";
                                            button_label (Button_getProps o);
                                            button_type (Button_getProps o);
                                            button_url (Button_getProps o)] |}] |}
      | _ => encode rest acc
      end
  end.

Definition SWComponentsSet_getProps (this : SWComponentsSet) : list (list string) :=
  let t := encode (elements_of (components this))
             {| tag_icons := []; tag_images := []; tag_inputs := []; tag_buttons := [] |} in
  tag_icons t ++ tag_images t ++ tag_inputs t
  ++ map metadata (sort (λ a b, minus (index a) (index b)) (tag_buttons t)).

(** ** Building the event ([helpers.js]) *)

(** [nanoid] is the string the id generator returns when it is asked.
    The three fields are set on a new event of the client, which is
    then signed; what comes back is the raw event after signing, or the
    signer's rejection. The [naddr] that the source returns beside the
    event is the external encoding of the kind, the signer's key and
    the identifier, and is left out. *)
Definition getNostrEvent (ndkInstance : NDK) (content : string)
    (tags : list (list string)) (identifier_ : value) (type : string)
    (nanoid : string) : completion NostrEvent :=
  let identifier :=
    match identifier_ with
    | VString s => if toBoolean identifier_ then s else nanoid
    | _ => nanoid
    end in
  let tags_ := ["d"; identifier] :: ["l"; type] :: tags in
  ndk_sign ndkInstance {| kind := 30033; content := content; tags := tags_ |}.

(** ** The widget facade ([lib.js]) *)

Definition msg_title : string := "The title should be an empty or valid string".
Definition msg_components : string :=
  "The components should be a SWComponentsSet instance".
Definition msg_publish : string :=
  "Event could not be published, make sure to init() your smart widget instance or change your relays set".

(** A parameter with a default value takes it when the argument is
    [undefined]. *)
Definition or_default (v d : value) : value :=
  match v with
  | VUndefined => d
  | _ => v
  end.

(** [title || ""], once [title] is known to be a string. *)
Definition content_of (title : value) : string :=
  match title with
  | VString s => s
  | _ => ""
  end.

Definition SW_signEvent (this : SW) (components title identifier : value)
    (nanoid : string) : completion NostrEvent :=
  let identifier := or_default identifier (VString "") in
  if negb (isTitleValid title) then Throw (Error msg_title) else
  match components with
  | VSWComponentsSet c =>
      let content := content_of title in
      event ← getNostrEvent (sw_ndkInstance this) content
                (SWComponentsSet_getProps {| components := c |})
                identifier (sw_type this) nanoid;
      Return event
  | _ => Throw (Error msg_components)
  end.

(** What is outside of [publish] while its promise is pending: whether
    one of the calls of the [try] block (the relay objects, the timer,
    the subscription) throws, and the times, in milliseconds after the
    promise was made, at which the subscription on the id of the event
    reports an event. The promise that [toPublish.publish(...)] returns
    is not awaited and no handler is put on it: fulfilled or rejected,
    it settles nothing here, and it is no part of the model. *)
Record network := {
  throws : bool;
  confirmations : list nat
}.

(** [reject(reason)] with a plain string. *)
Definition reject {A} (reason : string) : completion A := Throw (Rejection reason).

(** [timeout] is [None] when the argument is left out. An exception in
    the [try] block is caught and rejects. Otherwise the timer and the
    handler of the subscription both settle the promise, and the one
    that runs first counts: the handler when the first event is reported
    before the timer is due, the timer otherwise. *)
Definition SW_publish (this : SW) (components title identifier : value)
    (timeout : option nat) (nanoid : string) (net : network)
    : completion NostrEvent :=
  let identifier := or_default identifier (VString "") in
  let timeout := default 3000%nat timeout in
  if negb (isTitleValid title) then Throw (Error msg_title) else
  match components with
  | VSWComponentsSet c =>
      let content := content_of title in
      event ← getNostrEvent (sw_ndkInstance this) content
                (SWComponentsSet_getProps {| components := c |})
                identifier (sw_type this) nanoid;
      if throws net then reject msg_publish
      else
        match confirmations net with
        | now :: _ =>
            if (now <? timeout)%nat then Return event
            else reject msg_publish
        | [] => reject msg_publish
        end
  | _ => Throw (Error msg_components)
  end.

(** ** The event collector ([helpers.js])

    The client, its subscription and the timers are outside of the
    repository. The collector is modelled by what it does to them, as a
    list of [effect]s in the order they happen, and by the two callbacks
    it registers, as functions on the variables they close over. *)

Record NDKEvent := { pubkey : string; rawEvent : value }.

Record sub_data := { data : list value; pubkeys : list string }.

Record options := {
  cacheUsage : string;
  groupable : bool;
  skipVerification : bool;
  skipValidation : bool
}.

Inductive effect : Type :=
  | subscribe (filter_ : list (gmap string value)) (opts : options)
  | setTimeout (due : nat)
  | clearTimeout
  | stop
  | resolve (now : nat) (result : sub_data).

Module closure.
(** [events], [pubkeys] and [timer] of the promise executor; an armed
    timer is the time at which it is due. *)
Record t := {
  events : list value;
  pubkeys : list string;
  timer : option nat
}.
End closure.

(** [_ => { let temp = {..._}; if (!_["#t"]) { delete temp["#t"]; ... } return temp }] *)
Definition strip (f : gmap string value) : gmap string value :=
  let temp := f in
  if negb (toBoolean (default VUndefined (f !! "#t"))) then delete "#t" temp
  else temp.

Definition startTimer (timeout now : nat) (c : closure.t) : closure.t * list effect :=
  ({| closure.events := closure.events c;
      closure.pubkeys := closure.pubkeys c;
      closure.timer := Some (now + timeout)%nat |},
   (if closure.timer c is Some _ then [clearTimeout] else [])
   ++ [setTimeout (now + timeout)%nat]).

(** The handler of the subscription's "event". *)
Definition on_event (timeout now : nat) (event : NDKEvent) (c : closure.t)
    : closure.t * list effect :=
  startTimer timeout now
    {| closure.events := closure.events c ++ [rawEvent event];
       closure.pubkeys := closure.pubkeys c ++ [pubkey event];
       closure.timer := closure.timer c |}.

(** The callback of the timer. *)
Definition on_timer (now : nat) (c : closure.t) : list effect :=
  [stop; resolve now {| data := closure.events c;
                        pubkeys := unique (closure.pubkeys c) |}].

(** The event loop. The events arrive at the given times, in order; one
    that arrives before the timer is due is handed to the handler,
    otherwise the timer's callback runs first, at the time it is due, and
    the stopped subscription delivers nothing more. When the events are
    exhausted the timer runs out. *)
Fixpoint event_loop (timeout : nat) (arrivals : list (nat * NDKEvent))
    (c : closure.t) : list effect :=
  match arrivals with
  | [] =>
      match closure.timer c with
      | Some due => on_timer due c
      | None => []
      end
  | (now, event) :: rest =>
      match closure.timer c with
      | Some due =>
          if (now <? due)%nat then
            let '(c', effects) := on_event timeout now event c in
            effects ++ event_loop timeout rest c'
          else on_timer due c
      | None =>
          let '(c', effects) := on_event timeout now event c in
          effects ++ event_loop timeout rest c'
      end
  end.

Definition subscribe_options : options :=
  {| cacheUsage := "CACHE_FIRST"; groupable := false;
     skipVerification := true; skipValidation := true |}.

(** [filter] is [None] for an absent argument ([undefined] or [null])
    and the array of plain filter objects otherwise; the call is made at
    time 0, [timeout] is in milliseconds. *)
Definition getSubData (filter : option (list (gmap string value)))
    (timeout : nat) (arrivals : list (nat * NDKEvent)) : list effect :=
  match filter with
  | None | Some [] => [resolve 0 {| data := []; pubkeys := [] |}]
  | Some filter =>
      let filter_ := map strip filter in
      let '(c, effects) :=
        startTimer timeout 0
          {| closure.events := []; closure.pubkeys := []; closure.timer := None |} in
      subscribe filter_ subscribe_options :: effects ++ event_loop timeout arrivals c
  end.

(** ** Hexadecimal encoding of bytes ([helpers.js]) *)

(** [n.toString(16)] for a whole number [n >= 0]: its digits in base 16,
    in lower case, without leading zeros. *)
Definition hex_digit (d : N) : ascii :=
  nth (N.to_nat d) (String.list_ascii_of_string "0123456789abcdef") "0"%char.

Fixpoint toString16_digits (fuel : nat) (n : N) : list ascii :=
  match fuel with
  | O => []
  | S fuel' =>
      if (n <? 16)%N then [hex_digit n]
      else toString16_digits fuel' (n / 16)%N ++ [hex_digit (n mod 16)%N]
  end.

Definition toString16 (n : N) : string :=
  String.string_of_list_ascii (toString16_digits (S (N.to_nat (N.log2 n))) n).

(** [s.padStart(targetLength, padString)]: the missing length is filled
    at the front with [padString], repeated and cut as needed. *)
Definition padStart (targetLength : nat) (padString s : string) : string :=
  let missing := (targetLength - String.length s)%nat in
  String.string_of_list_ascii
    (take missing
       (mjoin (replicate missing (String.list_ascii_of_string padString))))
  +:+ s.

(** The table of the first loop: the two hex digits of every byte. *)
Definition byteToHex : list string :=
  (λ n, padStart 2 "0" (toString16 (N.of_nat n))) <$> seq 0 256.

(** [buff] holds the elements of [new Uint8Array(arrayBuffer)]. An
    index outside of the table would give [undefined], which [join]
    prints as the empty string. *)
Definition bytesTohex (buff : list Byte.byte) : string :=
  let hexOctets :=
    (λ b, default "" (byteToHex !! N.to_nat (Byte.to_N b))) <$> buff in
  String.concat "" hexOctets.

(** ** Sample components, used to run the definitions *)

Definition sample_image : value :=
  VImage {| image_url := "https://example.com/image.jpg" |}.
Definition sample_icon : value :=
  VIcon {| icon_url := "https://example.com/icon.png" |}.
Definition sample_input : value :=
  VInput {| input_label := "Enter text here" |}.
Definition sample_button (type : string) (i : Z) : value :=
  VButton {| button_index := Integer i; button_label := "Click Me";
             button_type := type; button_url := "https://example.com" |}.

(** A basic widget: an image and redirect buttons of the given indexes. *)
Definition sample_widget (indexes : list Z) : list value :=
  sample_image :: map (sample_button "redirect") indexes.

(** A signer that adds a tag of its own, as signers may. *)
Definition sample_ndk : NDK :=
  {| ndk_sign event :=
       Return {| kind := kind event; content := content event;
                 tags := tags event ++ [["client"; "sample"]] |} |}.

Definition sample_event (author : string) (id : Z) : NDKEvent :=
  {| pubkey := author; rawEvent := VObject {[ "id" := VNumber (Integer id) ]} |}.

(** ** Vocabulary of the statements *)

(** The events all arrive while the timer, due at [due] and re-armed for
    [timeout] more by each of them, is still running. *)
Fixpoint timely (timeout due : nat) (arrivals : list (nat * NDKEvent)) : Prop :=
  match arrivals with
  | [] => True
  | (now, _) :: rest => (now < due)%nat ∧ timely timeout (now + timeout)%nat rest
  end.

(** The time at which the timer is due after the last arrival. *)
Fixpoint last_due (timeout due : nat) (arrivals : list (nat * NDKEvent)) : nat :=
  match arrivals with
  | [] => due
  | (now, _) :: rest => last_due timeout (now + timeout)%nat rest
  end.

(** What one delivered event does to the timer. *)
Definition rearm (timeout : nat) (arrival : nat * NDKEvent) : list effect :=
  [clearTimeout; setTimeout (arrival.1 + timeout)%nat].

(** [v] is falsy: [undefined], [null], [false], [0], [NaN] or [""]. *)
Definition falsy (v : value) : Prop := toBoolean v = false.

(** The four component classes. *)
Definition is_component (v : value) : bool :=
  match v with
  | VIcon _ | VImage _ | VInput _ | VButton _ => true
  | _ => false
  end.

(** The components of one class, in the order of the list. *)
Definition icons_of (l : list value) : list Icon :=
  omap (λ v, match v with VIcon o => Some o | _ => None end) l.
Definition images_of (l : list value) : list Image :=
  omap (λ v, match v with VImage o => Some o | _ => None end) l.
Definition inputs_of (l : list value) : list Input :=
  omap (λ v, match v with VInput o => Some o | _ => None end) l.
Definition buttons_of (l : list value) : list Button :=
  omap (λ v, match v with VButton o => Some o | _ => None end) l.

(** The tags of the icons and images, as they come in the list. *)
Definition icon_image_tags (l : list value) : list (list string) :=
  omap (λ v, match v with
             | VIcon o => Some ["icon"; icon_url o]
             | VImage o => Some ["image"; image_url o]
             | _ => None
             end) l.

Definition input_tags (l : list value) : list (list string) :=
  (λ o, ["input"; input_label o]) <$> inputs_of l.

Definition button_tag (b : Button) : list string :=
  ["button"; button_label b; button_type b; button_url b].

(** The numbers [1, 2, ..., n]. *)
Definition one_to (n : nat) : list number := of_nat <$> seq 1 n.

(** The rules of the validator on the counts of each class, for a list
    of components that is not empty. *)
Definition rules (l : list value) (type : value) : check :=
  let isDefault := negb (includes ["action"; "tool"] type) in
  if bool_decide (length (images_of l) = 0%nat) then failed msg_no_image
  else if (1 <? length (images_of l))%nat then failed msg_images
  else if bool_decide (length (icons_of l) = 0%nat) && negb isDefault
  then failed msg_no_icon
  else if (1 <? length (icons_of l))%nat then failed msg_icons
  else if negb isDefault
          && (0 <? length (inputs_of l))%nat
          && (1 <? length (buttons_of l))%nat
          && negb (bool_decide ("app" ∈ button_type <$> buttons_of l))
  then failed msg_app_button
  else if (1 <? length (inputs_of l))%nat then failed msg_inputs
  else if (0 <? length (buttons_of l))%nat
          && negb (isConsecutiveArray (button_index <$> buttons_of l))
  then failed msg_buttons
  else passed.

(** The failures of the rules that come before the one on the app
    button: the array, its elements, the image and the icon. *)
Definition earlier_failures : list check :=
  [failed msg_not_array; failed msg_not_component; failed msg_no_image;
   failed msg_images; failed msg_no_icon; failed msg_icons].

(** The comparator of the encoder, on the Buttons themselves, and the
    entry the encoder makes of a Button. *)
Definition by_index (a b : Button) : number :=
  minus (button_index a) (button_index b).

Definition entry_of (b : Button) : button_entry :=
  {| index := button_index b; metadata := button_tag b |}.

(** The order of two numbers that are both integers. *)
Definition integer_le (a b : number) : Prop :=
  match a, b with
  | Integer x, Integer y => (x ≤ y)%Z
  | _, _ => False
  end.

(** The type asks for the rules of "action" and "tool". *)
Definition non_basic (type : value) : Prop :=
  includes ["action"; "tool"] type = true.

(** The conditions under which the rule on the app button fails a list. *)
Definition app_button_rule_fires (l : list value) (type : value) : Prop :=
  non_basic type
  ∧ (0 < length (inputs_of l))%nat
  ∧ (1 < length (buttons_of l))%nat
  ∧ "app" ∉ button_type <$> buttons_of l.

(** The three conditions on a url, one per kind of context. *)
Definition web_prefix (s : string) : bool :=
  String.prefix "https://" s || String.prefix "http://" s
  || String.prefix "data:image/" s.

Definition nostr_prefix (s : string) : bool :=
  String.prefix "nostr:" s || String.prefix "npub" s
  || String.prefix "nprofile" s || String.prefix "note1" s
  || String.prefix "nevent" s || String.prefix "naddr" s.

Definition zap_address (s : string) : bool :=
  full_match emailAddrRegex s
  || String.prefix "lnurl" s && (32 <? String.length s)%nat
  || String.prefix "lnbc" s && (32 <? String.length s)%nat.

(** The contexts in which a url has to be a web url: no context, or one
    of redirect, post and app. *)
Definition web_context (type : value) : bool :=
  negb (toBoolean type) || includes ["redirect"; "post"; "app"] type.

(** The condition on the url of a Button of the given type. *)
Definition url_fits (type url : string) : bool :=
  if bool_decide (type ∈ ["redirect"; "post"; "app"]) then web_prefix url
  else if bool_decide (type = "nostr") then nostr_prefix url
  else if bool_decide (type = "zap") then zap_address url
  else true.

(** The tag of one component. *)
Definition tag_of (v : value) : option (list string) :=
  match v with
  | VIcon o => Some ["icon"; icon_url o]
  | VImage o => Some ["image"; image_url o]
  | VInput o => Some ["input"; input_label o]
  | VButton o => Some (button_tag o)
  | _ => None
  end.

(** The identifier an event gets: the caller's when it is a non-empty
    string, the generated one otherwise. *)
Definition identifier_of (identifier : value) (nanoid : string) : string :=
  match identifier with
  | VString s => if bool_decide (s = "") then nanoid else s
  | _ => nanoid
  end.

(** The values of the model that have no [startsWith] method: all but
    the strings. *)
Definition no_startsWith (url : value) : Prop :=
  match url with
  | VString _ => False
  | _ => True
  end.

(** The event that [signEvent] and [publish] hand to the signer. *)
Definition event_template (title : string) (c identifier : value)
    (type nanoid : string) : NostrEvent :=
  {| kind := 30033; content := title;
     tags := ["d"; identifier_of identifier nanoid]
             :: ["l"; type]
             :: SWComponentsSet_getProps {| components := c |} |}.


(** The sixteen hex digits, and the two digits of one byte as
    [bytesTohex] prints them. *)
Definition hex_chars : list ascii :=
  String.list_ascii_of_string "0123456789abcdef".

Definition octet (b : Byte.byte) : string :=
  default "" (byteToHex !! N.to_nat (Byte.to_N b)).

(** The value of one hex digit, and the number two of them stand for. *)
Definition hex_value (c : ascii) : N :=
  N.of_nat (default 0%nat (list_find (λ d, d = c) hex_chars ≫= λ p, Some p.1)).

Definition octet_value (s : string) : N :=
  match s with
  | String c1 (String c2 _) => (16 * hex_value c1 + hex_value c2)%N
  | _ => 0%N
  end.

(** The strings a regular expression stands for. *)
Inductive matches : regex → string → Prop :=
  | matches_Eps : matches Eps ""
  | matches_Class p c : p c = true → matches (Class p) (String c "")
  | matches_Cat r1 r2 s1 s2 :
      matches r1 s1 → matches r2 s2 → matches (Cat r1 r2) (s1 +:+ s2)
  | matches_Alt_l r1 r2 s : matches r1 s → matches (Alt r1 r2) s
  | matches_Alt_r r1 r2 s : matches r2 s → matches (Alt r1 r2) s
  | matches_Star_nil r : matches (Star r) ""
  | matches_Star_cons r s1 s2 :
      matches r s1 → matches (Star r) s2 → matches (Star r) (s1 +:+ s2).

(** Every character of the string is in the class. *)
Definition all_in (p : ascii → bool) (s : string) : Prop :=
  Forall (λ c, p c = true) (String.list_ascii_of_string s).

(** The classes of the three parts of an email address. *)
Definition local_char (c : ascii) : bool := alnum c || one_of "._%+-" c.
Definition domain_char (c : ascii) : bool := alnum c || one_of ".-" c.

(** The nine reasons the validator gives. *)
Definition reasons : list string :=
  [msg_not_array; msg_not_component; msg_no_image; msg_images; msg_no_icon;
   msg_icons; msg_app_button; msg_inputs; msg_buttons].

(** * Properties *)

#[local] Close Scope Z_scope.

(** ** Arrays: [Set], [sort] and [every] *)

Section unique.
Context {A : Type} `{EqDecision A}.
Implicit Types (x : A) (l : list A).

Lemma elem_of_unique x l : x ∈ unique l ↔ x ∈ l.
Proof.
  induction l as [|y l IH]; [done|]. cbn [unique].
  rewrite !elem_of_cons, list_elem_of_filter, IH.
  destruct (decide (x = y)); tauto.
Qed.

Lemma NoDup_unique l : NoDup (unique l).
Proof.
  induction l as [|y l IH]; [constructor|]. cbn [unique]. constructor.
  - rewrite list_elem_of_filter. tauto.
  - by apply NoDup_filter.
Qed.

Lemma unique_length l : length (unique l) ≤ length l.
Proof.
  induction l as [|y l IH]; [done|]. cbn [unique length].
  pose proof (length_filter (λ z, z ≠ y) (unique l)). lia.
Qed.

Lemma filter_length_all (P : A → Prop) `{∀ x, Decision (P x)} l :
  length (filter P l) = length l → Forall P l.
Proof.
  induction l as [|y l IH]; [constructor|]. rewrite filter_cons.
  pose proof (length_filter P l). destruct (decide (P y)); cbn [length]; intros Hl.
  - constructor; [done|]. apply IH. lia.
  - lia.
Qed.

Lemma unique_length_NoDup l : length (unique l) = length l → NoDup l.
Proof.
  induction l as [|y l IH]; [constructor|]. cbn [unique length]. intros Hl.
  pose proof (length_filter (λ z, z ≠ y) (unique l)).
  pose proof (unique_length l).
  constructor.
  - intros Hy. apply elem_of_unique in Hy.
    assert (Forall (λ z, z ≠ y) (unique l)) as Hall
      by (apply (filter_length_all (λ z, z ≠ y) (unique l)); lia).
    by apply (proj1 (Forall_forall _ _) Hall y).
  - apply IH. lia.
Qed.

Lemma filter_ne_id x l : x ∉ l → filter (λ z, z ≠ x) l = l.
Proof.
  induction l as [|z l IH]; [done|]. intros [Hne Hx]%not_elem_of_cons.
  rewrite filter_cons. destruct (decide (z ≠ x)) as [|Hzx].
  - f_equal. by apply IH.
  - destruct Hzx. congruence.
Qed.

Lemma unique_NoDup l : NoDup l → unique l = l.
Proof.
  induction 1 as [|y l Hy _ IH]; [done|]. cbn [unique].
  by rewrite IH, filter_ne_id.
Qed.
End unique.

Section sort.
Context {A B : Type} (cmpA : A → A → number) (cmpB : B → B → number).
Context (f : A → B) (Hf : ∀ x y, cmpB (f x) (f y) = cmpA x y).

Lemma insert_Permutation x (l : list A) : insert cmpA x l ≡ₚ x :: l.
Proof.
  induction l as [|y l IH]; [done|]. cbn [insert].
  destruct (is_positive _); [|done]. rewrite IH. apply Permutation_swap.
Qed.

Lemma sort_Permutation (l : list A) : sort cmpA l ≡ₚ l.
Proof.
  induction l as [|x l IH]; [done|]. cbn [sort].
  by rewrite insert_Permutation, IH.
Qed.

Lemma sort_length (l : list A) : length (sort cmpA l) = length l.
Proof. by rewrite sort_Permutation. Qed.

Lemma insert_fmap x (l : list A) :
  insert cmpB (f x) (f <$> l) = f <$> insert cmpA x l.
Proof.
  induction l as [|y l IH]; [done|]. cbn [insert fmap list_fmap].
  rewrite Hf. destruct (is_positive _); [|done]. cbn. by rewrite <- IH.
Qed.

Lemma sort_fmap (l : list A) : sort cmpB (f <$> l) = f <$> sort cmpA l.
Proof.
  induction l as [|x l IH]; [done|]. cbn [sort fmap list_fmap].
  change (list_fmap A B f l) with (f <$> l). by rewrite IH, insert_fmap.
Qed.
End sort.

Lemma number_strict_equals_of_nat (x : number) (n : nat) :
  number_strict_equals x (of_nat n) = true ↔ x = of_nat n.
Proof.
  unfold number_strict_equals. destruct x; try apply bool_decide_eq_true.
  split; discriminate.
Qed.

Lemma every_from_consecutive (i : nat) (l : list number) :
  every_from (λ num i, number_strict_equals num (of_nat (i + 1))) i l = true
  ↔ l = of_nat <$> seq (S i) (length l).
Proof.
  revert i. induction l as [|x l IH]; intros i; [done|]. cbn [every_from length seq fmap list_fmap].
  rewrite andb_true_iff, number_strict_equals_of_nat, IH.
  replace (i + 1)%nat with (S i) by lia. split.
  - intros [-> Hl]. f_equal. exact Hl.
  - intros [= -> Hl]. split; [done|exact Hl].
Qed.

(** What [isConsecutiveArray] decides. *)
Lemma isConsecutiveArray_spec (arr : list number) :
  isConsecutiveArray arr = true
  ↔ arr ≠ [] ∧ length arr ≤ 6 ∧ NoDup arr
    ∧ sort minus (unique arr) = one_to (length arr).
Proof.
  unfold isConsecutiveArray, every, one_to. cbn zeta.
  pose proof (sort_length minus (unique arr)) as Hlen.
  pose proof (unique_length arr) as Hle.
  destruct (6 <? length (sort minus (unique arr)))%nat eqn:H6.
  - apply Nat.ltb_lt in H6. split; [done|]. intros (_ & Hn & Hnd & _).
    rewrite (unique_NoDup _ Hnd) in H6, Hlen. lia.
  - apply Nat.ltb_ge in H6.
    rewrite !andb_true_iff, bool_decide_eq_true, every_from_consecutive. split.
    + intros [[Hl H0] Hs]. rewrite Hl in Hs.
      assert (NoDup arr) by (apply unique_length_NoDup; lia).
      repeat split; [|lia|done|done].
      intros ->. discriminate H0.
    + intros (Hne & Hn & Hnd & Hs). rewrite (unique_NoDup _ Hnd) in *.
      rewrite Hs, length_fmap, length_seq. repeat split.
      destruct arr; [done|]. reflexivity.
Qed.

(** ** Field validators *)

Ltac run := cbn [mbind completion_bind mret completion_ret].

Lemma isTitleValid_string (s : string) : isTitleValid (VString s) = true.
Proof. reflexivity. Qed.

Lemma isTitleValid_other (title : value) :
  (∀ s, title ≠ VString s) → isTitleValid title = false.
Proof. destruct title; intros H; try reflexivity. by destruct (H s). Qed.

(** C6. The title check accepts exactly the strings. An omitted title is
    [undefined], which is not one: [isTitleValid] answers [false] for it
    and both [signEvent] and [publish] throw the title error, whatever
    the other arguments are. *)
Theorem isTitleValid_undefined_fails :
  isTitleValid VUndefined = false
  ∧ (∀ this components identifier nanoid,
       SW_signEvent this components VUndefined identifier nanoid
       = Throw (Error msg_title))
  ∧ (∀ this components identifier timeout nanoid net,
       SW_publish this components VUndefined identifier timeout nanoid net
       = Throw (Error msg_title)).
Proof. repeat split. Qed.

(** X25. For a url that is a string the validator returns, whatever
    the context: either [{status: true}], with no reason, or
    [{status: false, msg}] with one. It does not throw. *)
Theorem isURLValid_string_total (s : string) (type : value) :
  ∃ c, isURLValid (VString s) type = Return c
       ∧ (status c = true ∧ msg c = None ∨ status c = false ∧ is_Some (msg c)).
Proof.
  unfold isURLValid, and_then, or_else, not_, startsWith, length_gt. run.
  repeat (case_match; run); eexists; (split; [reflexivity|]); cbn; eauto.
Qed.

(** C8. The validator calls [url.startsWith] without looking at the
    type of [url], and neither [Icon] nor [Image] looks at it before
    they call the validator, as [Button] does: the [undefined] of
    [new Icon()] makes the first prefix test throw a [TypeError], so
    that the validator does not return for every url. *)
Lemma isURLValid_throws_on_undefined :
  isURLValid VUndefined VUndefined = Throw TypeError
  ∧ Icon_constructor VUndefined = Throw TypeError
  ∧ ¬ (∀ url type, ∃ c, isURLValid url type = Return c).
Proof.
  repeat split. intros H. destruct (H VUndefined VUndefined) as [c Hc].
  discriminate Hc.
Qed.

(** ** Button construction *)

(** Every number but zero gets through the guard on the index. *)
Lemma Button_constructor_index (n : number) (l t u : string) :
  n ≠ Integer 0 → l ≠ "" → u ≠ "" → t ∈ button_types →
  isURLValid (VString u) (VString t) = Return passed →
  Button_constructor (VNumber n) (VString l) (VString t) (VString u)
  = Return {| button_index := n; button_label := l;
              button_type := t; button_url := u |}.
Proof.
  intros Hn Hl Hu Ht Hurl. unfold Button_constructor.
  replace (number_strict_equals n (Integer 0)) with false; cycle 1.
  { destruct n; try reflexivity; cbn; by rewrite bool_decide_eq_false_2. }
  cbn [toBoolean]. rewrite !bool_decide_eq_false_2 by done. cbn [negb].
  replace (includes button_types (VString t)) with true; cycle 1.
  { symmetry. apply existsb_exists. exists t. split.
    - by apply list_elem_of_In.
    - cbn. by rewrite bool_decide_eq_true_2. }
  cbn [negb]. rewrite Hurl. reflexivity.
Qed.

(** C7. The guard of the constructor is [typeof index !== "number" ||
    index === 0]: a Button of index -1, and one of index 1.5, are
    created. *)
Theorem Button_constructor_index_unchecked :
  Button_constructor (VNumber (Integer (-1))) (VString "Go")
    (VString "redirect") (VString "https://example.com")
  = Return {| button_index := Integer (-1); button_label := "Go";
              button_type := "redirect"; button_url := "https://example.com" |}
  ∧ Button_constructor (VNumber (Fraction 1 1)) (VString "Go")
      (VString "redirect") (VString "https://example.com")
    = Return {| button_index := Fraction 1 1; button_label := "Go";
                button_type := "redirect"; button_url := "https://example.com" |}.
Proof. split; reflexivity. Qed.

(** ** The component-set validator *)

Lemma classify_spec (l : list value) (acc : buckets) :
  classify l acc
  = if forallb is_component l then
      Some {| icons := icons acc ++ icons_of l;
              images := images acc ++ images_of l;
              inputs := inputs acc ++ inputs_of l;
              buttons := buttons acc ++ (button_index <$> buttons_of l);
              buttonTypes := buttonTypes acc ++ (button_type <$> buttons_of l) |}
    else None.
Proof.
  revert acc. induction l as [|v l IH]; intros acc.
  - cbn. rewrite !app_nil_r. by destruct acc.
  - destruct v; try reflexivity; cbn [classify forallb is_component andb];
      rewrite IH; destruct (forallb is_component l); try reflexivity;
      cbn; by rewrite <- ?app_assoc.
Qed.

Lemma isSWComponentsSetValid_components (l : list value) (type : value) :
  l ≠ [] → forallb is_component l = true →
  isSWComponentsSetValid (VArray l) type = rules l type.
Proof.
  intros Hl Hc. unfold isSWComponentsSetValid, rules.
  destruct l as [|v l]; [done|]. rewrite classify_spec, Hc.
  cbn [icons images inputs buttons buttonTypes no_buckets app].
  by rewrite !length_fmap.
Qed.

Lemma isSWComponentsSetValid_earlier (instance : list value) (type : value) :
  isSWComponentsSetValid (VArray instance) type ∉ earlier_failures →
  instance ≠ [] ∧ forallb is_component instance = true
  ∧ length (images_of instance) = 1
  ∧ (includes ["action"; "tool"] type = true → length (icons_of instance) = 1)
  ∧ length (icons_of instance) ≤ 1.
Proof.
  intros H.
  assert (instance ≠ []) as Hne.
  { intros ->. apply H. cbn. set_solver. }
  assert (forallb is_component instance = true) as Hc.
  { destruct (forallb is_component instance) eqn:Hc; [done|]. destruct H.
    unfold isSWComponentsSetValid. destruct instance; [done|].
    rewrite classify_spec, Hc. unfold earlier_failures. set_solver. }
  rewrite isSWComponentsSetValid_components in H by done.
  unfold rules, earlier_failures in H. cbn zeta in H.
  repeat split; try done.
  - destruct (length (images_of instance)) as [|[|n]] eqn:Hi; [| done |];
      destruct H; cbn; set_solver.
  - intros Ht. rewrite Ht in H. cbn [negb andb] in H.
    destruct (length (images_of instance)) as [|[|n]];
      [destruct H; cbn; set_solver | | destruct H; cbn; set_solver].
    destruct (length (icons_of instance)) as [|[|n]]; [| done |];
      destruct H; cbn; set_solver.
  - destruct (length (images_of instance)) as [|[|n]];
      [destruct H; cbn; set_solver | | destruct H; cbn; set_solver].
    destruct (length (icons_of instance)) as [|[|n]]; [lia | lia |].
    destruct H. cbn. destruct (negb _); cbn; set_solver.
Qed.

(** C3. For the types "action" and "tool", once the rules on the array,
    on its elements, on the image and on the icon have passed, the
    validator fails with the app-button reason exactly when there is an
    Input, there are at least two Buttons and no Button is of type
    "app". *)
Theorem isSWComponentsSetValid_app_button_rule
    (instance : list value) (type : value) :
  type = VString "action" ∨ type = VString "tool" →
  isSWComponentsSetValid (VArray instance) type ∉ earlier_failures →
  isSWComponentsSetValid (VArray instance) type = failed msg_app_button
  ↔ 0 < length (inputs_of instance)
    ∧ 1 < length (buttons_of instance)
    ∧ ∀ b, b ∈ buttons_of instance → button_type b ≠ "app".
Proof.
  intros Ht Hearlier.
  assert (includes ["action"; "tool"] type = true) as Hnb
    by (by destruct Ht as [-> | ->]).
  destruct (isSWComponentsSetValid_earlier _ _ Hearlier)
    as (Hne & Hc & Himg & Hico & _).
  specialize (Hico Hnb).
  rewrite isSWComponentsSetValid_components by done.
  unfold rules. cbn zeta. rewrite Himg, Hico, Hnb.
  change (bool_decide (1 = 0)) with false. change (1 <? 1) with false.
  cbn [negb andb].
  assert ((∀ b, b ∈ buttons_of instance → button_type b ≠ "app")
          ↔ "app" ∉ button_type <$> buttons_of instance) as ->.
  { rewrite list_elem_of_fmap. split.
    - intros H (b & Hb & Hin). by apply (H b).
    - intros H b Hin Hb. apply H. by exists b. }
  rewrite <- !Nat.ltb_lt.
  destruct (0 <? length (inputs_of instance)),
           (1 <? length (buttons_of instance)); cbn [andb].
  - destruct (bool_decide_reflect ("app" ∈ button_type <$> buttons_of instance));
      cbn [negb].
    + split; [|tauto]. repeat case_match; discriminate.
    + by split.
  - split; [|intros (_ & [=] & _)]. repeat case_match; discriminate.
  - split; [|intros ([=] & _)]. repeat case_match; discriminate.
  - split; [|intros ([=] & _)]. repeat case_match; discriminate.
Qed.

Lemma isSWComponentsSetValid_app_button_rule_witness :
  isSWComponentsSetValid
    (VArray [sample_image; sample_icon; sample_input;
             sample_button "redirect" 1; sample_button "nostr" 2])
    (VString "tool")
  = failed msg_app_button
  ∧ isSWComponentsSetValid
      (VArray [sample_image; sample_icon;
               sample_button "redirect" 1; sample_button "nostr" 2])
      (VString "tool")
    = passed.
Proof.
  split; [|vm_compute; reflexivity].
  apply isSWComponentsSetValid_app_button_rule.
  - right. reflexivity.
  - intros H. unfold earlier_failures in H.
    repeat (apply elem_of_cons in H as [H|H]; [vm_compute in H; discriminate H|]).
    inversion H.
  - split; [cbn; lia|]. split; [cbn; lia|].
    intros b Hb. cbn in Hb.
    repeat (apply elem_of_cons in Hb as [->|Hb]; [discriminate|]).
    inversion Hb.
Defined.

Lemma isSWComponentsSetValid_passed (l : list value) (type : value) :
  status (isSWComponentsSetValid (VArray l) type) = true →
  l ≠ [] ∧ forallb is_component l = true ∧ rules l type = passed.
Proof.
  intros H.
  assert (l ≠ []) as Hne by (by intros ->).
  assert (forallb is_component l = true) as Hc.
  { destruct (forallb is_component l) eqn:Hc; [done|].
    unfold isSWComponentsSetValid in H. destruct l; [done|].
    by rewrite classify_spec, Hc in H. }
  repeat split; try done.
  rewrite isSWComponentsSetValid_components in H by done.
  unfold rules in *. cbn zeta in *. by repeat case_match.
Qed.

Lemma rules_passed (l : list value) (type : value) :
  rules l type = passed →
  length (images_of l) = 1 ∧ length (icons_of l) ≤ 1
  ∧ length (inputs_of l) ≤ 1
  ∧ (buttons_of l ≠ [] →
     isConsecutiveArray (button_index <$> buttons_of l) = true).
Proof.
  unfold rules. cbn zeta.
  destruct (bool_decide_reflect (length (images_of l) = 0)); [done|].
  destruct (Nat.ltb_spec 1 (length (images_of l))); [done|].
  destruct (bool_decide (length (icons_of l) = 0) && _); [done|].
  destruct (Nat.ltb_spec 1 (length (icons_of l))); [done|].
  destruct (_ && _ && _ && _); [done|].
  destruct (Nat.ltb_spec 1 (length (inputs_of l))); [done|].
  destruct (Nat.ltb_spec 0 (length (buttons_of l))) as [Hb|Hb]; cbn [andb].
  - destruct (isConsecutiveArray _); [|done]. intros _. repeat split; lia.
  - intros _. repeat split; try lia. intros Hne. destruct (buttons_of l); [done|].
    cbn in Hb. lia.
Qed.

Lemma buttons_of_nonempty (l : list value) :
  (∃ b, VButton b ∈ l) ↔ buttons_of l ≠ [].
Proof.
  split.
  - intros [b Hb] Hnil.
    assert (b ∈ buttons_of l) as Hin
      by (apply list_elem_of_omap; by exists (VButton b)).
    rewrite Hnil in Hin. inversion Hin.
  - intros Hne. destruct (buttons_of l) as [|b bs] eqn:Hl; [done|].
    assert (b ∈ buttons_of l) as Hin by (rewrite Hl; left).
    apply list_elem_of_omap in Hin as (v & Hv & Hb). exists b.
    destruct v; try discriminate. by injection Hb as ->.
Qed.

(** C1. A list with at least one Button is accepted only if the indexes
    of its Buttons have no duplicate, are at most six and, once
    deduplicated and sorted, are [1, 2, ..., N], so that the indexes are
    these numbers in some order; and a list that fails
    with the reason on the buttons breaks one of the three. So the
    widgets with the Buttons 1, 2, 3 pass, in any order, and those with
    1, 2, 4, with 2, 3, 4, with 1, 1, 2 and with 1 to 7 fail with that
    reason. *)
Theorem isSWComponentsSetValid_button_indexes :
  (∀ (instance : list value) (type : value),
     (∃ b, VButton b ∈ instance) →
     let indexes := button_index <$> buttons_of instance in
     let consecutive :=
       NoDup indexes ∧ length indexes ≤ 6
       ∧ sort minus (unique indexes) = one_to (length indexes) in
     (status (isSWComponentsSetValid (VArray instance) type) = true →
      consecutive ∧ indexes ≡ₚ one_to (length indexes))
     ∧ (isSWComponentsSetValid (VArray instance) type = failed msg_buttons →
        ¬ consecutive))
  ∧ isSWComponentsSetValid (VArray (sample_widget [1; 2; 3]%Z)) (VString "basic")
    = passed
  ∧ isSWComponentsSetValid (VArray (sample_widget [3; 1; 2]%Z)) (VString "basic")
    = passed
  ∧ Forall (λ indexes,
            isSWComponentsSetValid (VArray (sample_widget indexes)) (VString "basic")
            = failed msg_buttons)
      [[1; 2; 4]; [2; 3; 4]; [1; 1; 2]; [1; 2; 3; 4; 5; 6; 7]]%Z.
Proof.
  split; [|split; [|split]]; try (vm_compute; reflexivity).
  - intros instance type Hb%buttons_of_nonempty indexes consecutive.
    assert (indexes ≠ []) as Hidx.
    { subst indexes. by destruct (buttons_of instance). }
    assert (isConsecutiveArray indexes = true ↔ consecutive) as Hspec.
    { rewrite isConsecutiveArray_spec. subst consecutive. tauto. }
    split.
    + intros (_ & _ & Hr)%isSWComponentsSetValid_passed.
      apply rules_passed in Hr as (_ & _ & _ & Hr).
      apply Hr, Hspec in Hb as Hcons. split; [done|].
      destruct Hcons as (Hnd & _ & <-).
      by rewrite sort_Permutation, (unique_NoDup _ Hnd).
    + intros Hf Hcons%Hspec.
      assert (instance ≠ []) as Hne by (intros ->; done).
      destruct (forallb is_component instance) eqn:Hc; cycle 1.
      { unfold isSWComponentsSetValid in Hf. destruct instance; [done|].
        by rewrite classify_spec, Hc in Hf. }
      rewrite isSWComponentsSetValid_components in Hf by done.
      unfold rules in Hf. cbn zeta in Hf. fold indexes in Hf.
      rewrite Hcons, andb_false_r in Hf. by repeat case_match.
  - repeat constructor.
Qed.

Lemma isSWComponentsSetValid_button_indexes_witness :
  let indexes := Integer <$> [3; 1; 2]%Z in
  NoDup indexes ∧ length indexes ≤ 6
  ∧ sort minus (unique indexes) = one_to (length indexes).
Proof.
  destruct isSWComponentsSetValid_button_indexes as [H _].
  destruct (H (sample_widget [3; 1; 2]%Z) (VString "basic")) as [Haccept _].
  - exists {| button_index := Integer 3; button_label := "Click Me";
              button_type := "redirect"; button_url := "https://example.com" |}.
    right. left.
  - apply Haccept. vm_compute. reflexivity.
Defined.

(** ** The component set *)

(** C10. Only an instance of [SW] changes the type the components are
    checked against: with any other second argument, absent or not, the
    constructor is the check against "basic". So a set that the basic
    rules accept is constructed, also when the rules of the "action" type
    reject it for its missing icon. *)
Theorem SWComponentsSet_constructor_defaults_to_basic
    (components smartWidgetInstance : value) :
  (∀ o, smartWidgetInstance ≠ VSW o) →
  SWComponentsSet_constructor components smartWidgetInstance
  = (let checkComps := isSWComponentsSetValid components (VString "basic") in
     if status checkComps then Return {| components := components |}
     else Throw (Error_of checkComps))
  ∧ (status (isSWComponentsSetValid components (VString "basic")) = true →
     SWComponentsSet_constructor components smartWidgetInstance
     = Return {| components := components |}).
Proof.
  intros Hw. unfold SWComponentsSet_constructor.
  assert (match smartWidgetInstance with
          | VSW w => VString (sw_type w)
          | _ => VString "basic"
          end = VString "basic") as ->.
  { destruct smartWidgetInstance; try reflexivity. by destruct (Hw o). }
  split.
  - cbn zeta. by destruct (status _).
  - by intros ->.
Qed.

Lemma SWComponentsSet_constructor_defaults_to_basic_witness :
  SWComponentsSet_constructor (VArray (sample_widget [1%Z])) (VString "action")
  = Return {| components := VArray (sample_widget [1%Z]) |}
  ∧ isSWComponentsSetValid (VArray (sample_widget [1%Z])) (VString "action")
    = failed msg_no_icon.
Proof.
  split.
  - apply (SWComponentsSet_constructor_defaults_to_basic
             (VArray (sample_widget [1%Z])) (VString "action")).
    + intros o. discriminate.
    + vm_compute. reflexivity.
  - vm_compute. reflexivity.
Defined.

(** ** The encoder *)

Lemma encode_spec (l : list value) (acc : tag_buckets) :
  encode l acc
  = {| tag_icons := tag_icons acc;
       tag_images := tag_images acc ++ icon_image_tags l;
       tag_inputs := tag_inputs acc ++ input_tags l;
       tag_buttons := tag_buttons acc ++ (entry_of <$> buttons_of l) |}.
Proof.
  revert acc. induction l as [|v l IH]; intros acc.
  - cbn. rewrite !app_nil_r. by destruct acc.
  - destruct v; cbn [encode]; rewrite IH; cbn; by rewrite <- ?app_assoc.
Qed.

Lemma getProps_sorted (c : value) :
  let l := elements_of c in
  SWComponentsSet_getProps {| components := c |}
  = icon_image_tags l ++ input_tags l
    ++ (button_tag <$> sort by_index (buttons_of l)).
Proof.
  unfold SWComponentsSet_getProps. cbn [components]. cbn zeta.
  rewrite encode_spec.
  cbn [tag_icons tag_images tag_inputs tag_buttons app].
  rewrite (sort_fmap by_index _ entry_of) by done.
  by rewrite <- list_fmap_compose.
Qed.

Lemma one_to_NoDup (n : nat) : NoDup (one_to n).
Proof.
  apply NoDup_fmap_2; [|apply NoDup_seq].
  intros a b [= H]. lia.
Qed.

(** The indexes of the Buttons of a validated list, sorted. *)
Lemma sort_by_index_valid (l : list value) (type : value) :
  status (isSWComponentsSetValid (VArray l) type) = true →
  button_index <$> sort by_index (buttons_of l) = one_to (length (buttons_of l)).
Proof.
  intros (_ & _ & Hr)%isSWComponentsSetValid_passed.
  apply rules_passed in Hr as (_ & _ & _ & Hr).
  rewrite <- (sort_fmap by_index minus button_index) by done.
  destruct (buttons_of l) as [|b bl] eqn:Hb; [done|].
  specialize (Hr ltac:(done)).
  apply isConsecutiveArray_spec in Hr as (_ & _ & Hnd & Hs).
  by rewrite (unique_NoDup _ Hnd), length_fmap in Hs.
Qed.

(** Two orderings of the same Buttons that show the same indexes, all
    different, are the same ordering. *)
Lemma ordering_unique (bs bs' : list Button) :
  bs ≡ₚ bs' → button_index <$> bs = button_index <$> bs' →
  NoDup (button_index <$> bs) → bs = bs'.
Proof.
  revert bs'. induction bs as [|b bs IH]; intros bs' Hp Hi Hnd.
  - by apply Permutation_nil_l in Hp.
  - destruct bs' as [|b' bs']; [done|].
    rewrite !fmap_cons in Hi. injection Hi as Hb Hi.
    rewrite fmap_cons in Hnd. apply NoDup_cons in Hnd as [Hnotin Hnd].
    assert (b = b') as <-.
    { assert (b ∈ b' :: bs') as Hin by (rewrite <- Hp; left).
      apply elem_of_cons in Hin as [|Hin]; [done|]. destruct Hnotin.
      rewrite Hi. by apply list_elem_of_fmap_2. }
    f_equal. apply IH; [|done|done]. by apply Permutation_cons_inv in Hp.
Qed.

Lemma SWComponentsSet_constructor_Return (components w : value)
    (this : SWComponentsSet) :
  SWComponentsSet_constructor components w = Return this →
  this = {| components := components |}
  ∧ ∃ type, status (isSWComponentsSetValid components type) = true.
Proof.
  unfold SWComponentsSet_constructor. cbn zeta.
  destruct (status _) eqn:Hs; [|done]. intros [= <-]. split; [done|]. eauto.
Qed.

Lemma isSWComponentsSetValid_elements (components type : value) :
  status (isSWComponentsSetValid components type) = true →
  components = VArray (elements_of components).
Proof. by destruct components. Qed.

(** C2. The tags of a constructed set are: the tags of its Icons and
    Images, in the order of the list; then those of its Inputs; then
    those of its Buttons in the order of their indexes, which are 1, 2,
    ..., N. The order of the Buttons in the list has no part in it: any
    other constructed set with the same Buttons gets the same sequence
    of Button tags. Being a function of the components, the encoding is
    the same each time it is asked for. *)
Theorem getProps_canonical_order
    (components smartWidgetInstance : value) (this : SWComponentsSet) :
  SWComponentsSet_constructor components smartWidgetInstance = Return this →
  ∃ ordered : list Button,
    ordered ≡ₚ buttons_of (elements_of components)
    ∧ button_index <$> ordered = one_to (length ordered)
    ∧ SWComponentsSet_getProps this
      = icon_image_tags (elements_of components)
        ++ input_tags (elements_of components)
        ++ (button_tag <$> ordered)
    ∧ ∀ components' smartWidgetInstance' this',
        SWComponentsSet_constructor components' smartWidgetInstance' = Return this' →
        buttons_of (elements_of components') ≡ₚ buttons_of (elements_of components) →
        SWComponentsSet_getProps this'
        = icon_image_tags (elements_of components')
          ++ input_tags (elements_of components')
          ++ (button_tag <$> ordered).
Proof.
  intros (-> & type & Hv)%SWComponentsSet_constructor_Return.
  exists (sort by_index (buttons_of (elements_of components))).
  pose proof (isSWComponentsSetValid_elements _ _ Hv) as Hc.
  rewrite Hc in Hv. apply sort_by_index_valid in Hv as Hidx.
  split; [apply sort_Permutation|]. split; [by rewrite sort_length|].
  split; [apply getProps_sorted|].
  intros components' w' this' (-> & type' & Hv')%SWComponentsSet_constructor_Return Hp.
  rewrite getProps_sorted. cbn zeta. do 3 f_equal.
  pose proof (isSWComponentsSetValid_elements _ _ Hv') as Hc'.
  rewrite Hc' in Hv'. apply sort_by_index_valid in Hv' as Hidx'.
  apply ordering_unique.
  - by rewrite !sort_Permutation.
  - rewrite Hidx, Hidx'. by rewrite Hp.
  - rewrite Hidx'. apply one_to_NoDup.
Qed.

Lemma getProps_canonical_order_witness :
  ∃ ordered : list Button,
    button_index <$> ordered = one_to (length ordered)
    ∧ SWComponentsSet_getProps
        {| components :=
             VArray [sample_button "redirect" 3; sample_image; sample_input;
                     sample_button "nostr" 1; sample_icon; sample_button "zap" 2] |}
      = [["image"; "https://example.com/image.jpg"];
         ["icon"; "https://example.com/icon.png"];
         ["input"; "Enter text here"]]
        ++ (button_tag <$> ordered).
Proof.
  destruct (getProps_canonical_order
    (VArray [sample_button "redirect" 3; sample_image; sample_input;
             sample_button "nostr" 1; sample_icon; sample_button "zap" 2])
    VUndefined _ eq_refl) as (ordered & _ & Hi & Hg & _).
  exists ordered. split; [exact Hi|exact Hg].
Defined.

(** ** The event collector *)

(** C5. Without a filter argument, or with an empty array, the promise
    is resolved at once with empty results, and that is all that
    happens: no subscription is opened and no timer armed. *)
Theorem getSubData_empty_filter
    (filter : option (list (gmap string value))) (timeout : nat)
    (arrivals : list (nat * NDKEvent)) :
  filter = None ∨ filter = Some [] →
  getSubData filter timeout arrivals = [resolve 0 {| data := []; pubkeys := [] |}]
  ∧ ∀ filter_ opts, subscribe filter_ opts ∉ getSubData filter timeout arrivals.
Proof.
  intros [-> | ->]; (split; [reflexivity|]); intros filter_ opts;
    cbn; rewrite list_elem_of_singleton; discriminate.
Qed.

Lemma getSubData_empty_filter_witness :
  getSubData (Some []) 1000 [(100, sample_event "alice" 1)]
  = [resolve 0 {| data := []; pubkeys := [] |}].
Proof.
  apply (getSubData_empty_filter (Some []) 1000 [(100, sample_event "alice" 1)]).
  right. reflexivity.
Defined.

Lemma strip_lookup_ne (f : gmap string value) (k : string) :
  k ≠ "#t" → strip f !! k = f !! k.
Proof.
  intros Hk. unfold strip. destruct (negb _); [|done].
  by rewrite lookup_delete_ne.
Qed.

Lemma strip_lookup_t (f : gmap string value) :
  strip f !! "#t"
  = match f !! "#t" with
    | Some v => if toBoolean v then Some v else None
    | None => None
    end.
Proof.
  unfold strip. destruct (f !! "#t") as [v|] eqn:Hf; cbn.
  - destruct (toBoolean v); cbn; [done|]. by rewrite lookup_delete_eq.
  - by rewrite lookup_delete_eq.
Qed.

(** C9, as amended. The filters handed to [subscribe] are the given ones
    with one field looked at: ["#t"] is removed when its value is falsy,
    and kept otherwise; every other field goes through as it is, falsy
    or not. *)
Theorem getSubData_strips_t_only
    (f : gmap string value) (filter : list (gmap string value))
    (timeout : nat) (arrivals : list (nat * NDKEvent)) :
  head (getSubData (Some (f :: filter)) timeout arrivals)
  = Some (subscribe (strip <$> f :: filter) subscribe_options)
  ∧ ∀ (i : nat) (g : gmap string value), (f :: filter) !! i = Some g →
      (strip <$> f :: filter) !! i = Some (strip g)
      ∧ (∀ k, k ≠ "#t" → strip g !! k = g !! k)
      ∧ (∀ v, g !! "#t" = Some v → falsy v → strip g !! "#t" = None)
      ∧ (∀ v, g !! "#t" = Some v → ¬ falsy v → strip g !! "#t" = Some v).
Proof.
  split; [reflexivity|]. intros i g Hg. split; [|split; [|split]].
  - by rewrite list_lookup_fmap, Hg.
  - intros k. apply strip_lookup_ne.
  - intros v Hv Hf. rewrite strip_lookup_t, Hv. by rewrite Hf.
  - intros v Hv Hf. rewrite strip_lookup_t, Hv.
    unfold falsy in Hf. by destruct (toBoolean v).
Qed.

Lemma getSubData_strips_t_only_witness :
  strip {[ "#t" := VString ""; "kinds" := VArray [VNumber (Integer 30033)] ]}
    !! "#t" = None.
Proof.
  pose proof (getSubData_strips_t_only
    {[ "#t" := VString ""; "kinds" := VArray [VNumber (Integer 30033)] ]}
    [] 1000 []) as [_ H].
  destruct (H 0 _ eq_refl) as (_ & _ & Hfalsy & _).
  apply (Hfalsy (VString "")); reflexivity.
Defined.

(** C9, the claim as stated fails: a falsy field other than ["#t"], here
    [limit: 0], is handed to [subscribe] as it came. *)
Lemma getSubData_keeps_falsy_field :
  falsy (VNumber (Integer 0))
  ∧ head (getSubData (Some [ {[ "limit" := VNumber (Integer 0) ]} ]) 1000 [])
    = Some (subscribe [ {[ "limit" := VNumber (Integer 0) ]} ] subscribe_options).
Proof. split; vm_compute; reflexivity. Qed.

(** The loop, from any state of the closure with an armed timer. *)
Lemma event_loop_timely (timeout due : nat) (arrivals : list (nat * NDKEvent))
    (events : list value) (pubkeys : list string) :
  timely timeout due arrivals →
  event_loop timeout arrivals
    {| closure.events := events; closure.pubkeys := pubkeys;
       closure.timer := Some due |}
  = (arrivals ≫= rearm timeout)
    ++ [stop;
        resolve (last_due timeout due arrivals)
          {| data := events ++ (rawEvent ∘ snd <$> arrivals);
             pubkeys := unique (pubkeys ++ (pubkey ∘ snd <$> arrivals)) |}].
Proof.
  revert due events pubkeys.
  induction arrivals as [|[now event] rest IH]; intros due events pubkeys Ht.
  - cbn. by rewrite !app_nil_r.
  - destruct Ht as [Hnow Hrest]. cbn [event_loop closure.timer].
    apply Nat.ltb_lt in Hnow as ->.
    cbn [on_event startTimer closure.events closure.pubkeys closure.timer].
    rewrite IH by done. cbn. by rewrite <- !app_assoc.
Qed.

(** C4. When every event arrives before the quiet period since the
    previous one (or since the call) is over, the collector subscribes,
    arms the timer, re-arms it on each event and, once the period after
    the last event has passed, stops the subscription and resolves, once,
    with the raw form of all the events in the order of their arrival
    and with their author keys, each key once. *)
Theorem getSubData_collects
    (f : gmap string value) (filter : list (gmap string value))
    (timeout : nat) (arrivals : list (nat * NDKEvent)) :
  timely timeout timeout arrivals →
  getSubData (Some (f :: filter)) timeout arrivals
  = subscribe (strip <$> f :: filter) subscribe_options
    :: setTimeout timeout
    :: (arrivals ≫= rearm timeout)
    ++ [stop;
        resolve (last_due timeout timeout arrivals)
          {| data := rawEvent ∘ snd <$> arrivals;
             pubkeys := unique (pubkey ∘ snd <$> arrivals) |}]
  ∧ NoDup (unique (pubkey ∘ snd <$> arrivals))
  ∧ ∀ key, key ∈ unique (pubkey ∘ snd <$> arrivals)
           ↔ ∃ arrival, arrival ∈ arrivals ∧ pubkey arrival.2 = key.
Proof.
  intros Ht. split; [|split].
  - unfold getSubData. cbn [startTimer closure.timer app].
    change (0 + timeout) with timeout.
    by rewrite event_loop_timely.
  - apply NoDup_unique.
  - intros key. rewrite elem_of_unique, list_elem_of_fmap. split.
    + intros (arrival & -> & Ha). by exists arrival.
    + intros (arrival & Ha & <-). by exists arrival.
Qed.

Lemma getSubData_collects_witness :
  getSubData (Some [ {[ "kinds" := VArray [VNumber (Integer 30033)] ]} ]) 1000
    [(100, sample_event "alice" 1); (200, sample_event "bob" 2);
     (300, sample_event "alice" 3)]
  = [subscribe [ {[ "kinds" := VArray [VNumber (Integer 30033)] ]} ] subscribe_options;
     setTimeout 1000;
     clearTimeout; setTimeout 1100;
     clearTimeout; setTimeout 1200;
     clearTimeout; setTimeout 1300;
     stop;
     resolve 1300
       {| data := [rawEvent (sample_event "alice" 1);
                   rawEvent (sample_event "bob" 2);
                   rawEvent (sample_event "alice" 3)];
          pubkeys := ["alice"; "bob"] |}].
Proof.
  rewrite (proj1 (getSubData_collects _ [] 1000
    [(100, sample_event "alice" 1); (200, sample_event "bob" 2);
     (300, sample_event "alice" 3)] ltac:(cbn; lia))).
  vm_compute. reflexivity.
Defined.

(** * Further properties *)

(** ** Sorting integers *)

Lemma minus_Integer (a b : Z) : minus (Integer a) (Integer b) = Integer (a - b).
Proof. cbn. f_equal. lia. Qed.

#[local] Instance integer_le_antisymm : AntiSymm (=) integer_le.
Proof.
  intros [| |x|] [| |y|]; cbn; try done. intros ??. f_equal. lia.
Qed.

#[local] Instance integer_le_trans : Transitive integer_le.
Proof. intros [| |x|] [| |y|] [| |z|]; cbn; try done. lia. Qed.

Lemma insert_Sorted (x : Z) (l : list Z) :
  Sorted Z.le l →
  Sorted Z.le (insert (λ a b, minus (Integer a) (Integer b)) x l).
Proof.
  induction 1 as [|y l Hl IH Hhd]; cbn [insert].
  - repeat constructor.
  - rewrite minus_Integer. cbn [is_positive]. case_bool_decide as Hxy.
    + constructor; [done|]. destruct Hhd as [|z l Hyz]; cbn [insert].
      * constructor. lia.
      * rewrite minus_Integer. cbn [is_positive].
        case_bool_decide; constructor; lia.
    + constructor; [by constructor|]. constructor. lia.
Qed.

Lemma sort_integers_Sorted (l : list Z) :
  StronglySorted integer_le (sort minus (Integer <$> l)).
Proof.
  rewrite (sort_fmap (λ a b, minus (Integer a) (Integer b)) minus Integer) by done.
  apply (StronglySorted_fmap Integer Z.le integer_le); [done|].
  apply Sorted_StronglySorted; [apply _|].
  induction l as [|x l IH]; [constructor|]. cbn [sort]. by apply insert_Sorted.
Qed.

Lemma one_to_Sorted (n : nat) : StronglySorted integer_le (one_to n).
Proof.
  unfold one_to. generalize 1. induction n as [|n IH]; intros k; [constructor|].
  cbn [seq fmap list_fmap]. constructor; [apply IH|].
  apply Forall_fmap, Forall_forall. intros i Hi%elem_of_seq. cbn. lia.
Qed.

Lemma Forall_Integer (l : list number) :
  Forall (λ x, ∃ z, x = Integer z) l → ∃ zs, l = Integer <$> zs.
Proof.
  induction 1 as [|x l [z ->] _ [zs ->]]; [by exists []|]. by exists (z :: zs).
Qed.

(** Sorting any arrangement of 1, ..., n puts them in order. *)
Lemma sort_one_to (arr : list number) (n : nat) :
  arr ≡ₚ one_to n → sort minus arr = one_to n.
Proof.
  intros Hp.
  destruct (Forall_Integer arr) as [zs ->].
  { rewrite Hp. apply Forall_fmap, Forall_forall. intros i _. by exists (Z.of_nat i). }
  apply (StronglySorted_unique integer_le).
  - apply sort_integers_Sorted.
  - apply one_to_Sorted.
  - by rewrite sort_Permutation.
Qed.

(** ** The index rule, without the sort *)

Lemma isConsecutiveArray_arrangement (arr : list number) :
  isConsecutiveArray arr = true
  ↔ arr ≠ [] ∧ length arr ≤ 6 ∧ arr ≡ₚ one_to (length arr).
Proof.
  rewrite isConsecutiveArray_spec. split.
  - intros (Hne & Hn & Hnd & Hs). repeat split; try done.
    by rewrite <- Hs, sort_Permutation, (unique_NoDup _ Hnd).
  - intros (Hne & Hn & Hp). repeat split; try done.
    + rewrite Hp. apply one_to_NoDup.
    + rewrite unique_NoDup by (rewrite Hp; apply one_to_NoDup).
      by apply sort_one_to.
Qed.

(** X1. [isConsecutiveArray] accepts exactly the arrangements of
    1, ..., N for an N from 1 to 6. *)
Theorem isConsecutiveArray_Permutation (arr : list number) :
  isConsecutiveArray arr = true
  ↔ arr ≠ [] ∧ length arr ≤ 6 ∧ arr ≡ₚ one_to (length arr).
Proof. apply isConsecutiveArray_arrangement. Qed.

Lemma isConsecutiveArray_Permutation_witness :
  isConsecutiveArray [Integer 2; Integer 3; Integer 1] = true.
Proof.
  apply isConsecutiveArray_Permutation. split; [done|]. split; [cbn; lia|].
  change (one_to (length [Integer 2; Integer 3; Integer 1]))
    with ([Integer 1] ++ [Integer 2; Integer 3]).
  apply (Permutation_app_comm [Integer 2; Integer 3] [Integer 1]).
Defined.

(** ** What the validator accepts *)

Lemma status_if_failed (b : bool) (m : string) (c : check) :
  status (if b then failed m else c) = true ↔ b = false ∧ status c = true.
Proof. destruct b; cbn; intuition discriminate. Qed.

Lemma rules_status (l : list value) (type : value) :
  status (rules l type) = true
  ↔ length (images_of l) = 1
    ∧ length (icons_of l) ≤ 1
    ∧ (non_basic type → length (icons_of l) = 1)
    ∧ length (inputs_of l) ≤ 1
    ∧ ¬ app_button_rule_fires l type
    ∧ length (buttons_of l) ≤ 6
    ∧ button_index <$> buttons_of l ≡ₚ one_to (length (buttons_of l)).
Proof.
  unfold rules, app_button_rule_fires, non_basic. cbn zeta.
  rewrite !status_if_failed, !andb_false_iff, !negb_false_iff, !negb_true_iff.
  rewrite !bool_decide_eq_false, bool_decide_eq_true, !Nat.ltb_ge.
  rewrite isConsecutiveArray_arrangement, length_fmap.
  destruct (decide ("app" ∈ button_type <$> buttons_of l)).
  all: assert (button_index <$> buttons_of l ≠ [] ↔ 0 < length (buttons_of l))
    as -> by (destruct (buttons_of l); cbn; split; (done || lia)).
  all: assert (one_to 0 = []) as Hzero by done.
  all: assert (length (buttons_of l) = 0 → button_index <$> buttons_of l = [])
    as Hnil by (by intros ->%length_zero_iff_nil).
  all: destruct (includes ["action"; "tool"] type).
  all: split; intros H; repeat split; try tauto; try lia.
  all: try (destruct H as (_ & _ & _ & _ & _ & _ & [Hb|?] & _); [|tauto];
            assert (length (buttons_of l) = 0) as Hl by lia;
            by rewrite (Hnil Hl), Hl).
  all: try (intros Hf; destruct H as (_ & _ & _ & _ & H & _); intuition (lia || done)).
  all: try (destruct (decide (length (buttons_of l) = 0)); [left; lia|right; intuition lia]).
  all: try (destruct H as (_ & _ & _ & _ & H & _);
            destruct (decide (0 < length (inputs_of l)));
            destruct (decide (1 < length (buttons_of l))); intuition (lia || done)).
Qed.

Lemma forallb_is_component (l : list value) :
  forallb is_component l = true ↔ Forall (λ v, is_component v = true) l.
Proof. rewrite forallb_forall, Forall_forall. by setoid_rewrite list_elem_of_In. Qed.

Lemma accepted_iff (l : list value) (type : value) :
  status (isSWComponentsSetValid (VArray l) type) = true
  ↔ l ≠ []
    ∧ Forall (λ v, is_component v = true) l
    ∧ length (images_of l) = 1
    ∧ length (icons_of l) ≤ 1
    ∧ (non_basic type → length (icons_of l) = 1)
    ∧ length (inputs_of l) ≤ 1
    ∧ ¬ app_button_rule_fires l type
    ∧ length (buttons_of l) ≤ 6
    ∧ button_index <$> buttons_of l ≡ₚ one_to (length (buttons_of l)).
Proof.
  rewrite <- forallb_is_component, <- rules_status. split.
  - intros (Hne & Hc & Hr)%isSWComponentsSetValid_passed. by rewrite Hr.
  - intros (Hne & Hc & Hr). by rewrite isSWComponentsSetValid_components.
Qed.

(** X2. A list is accepted exactly when: it is not empty; its elements
    are components; it has one Image, at most one Icon and, for "action"
    and "tool", one Icon; it has at most one Input; the app-button rule
    does not fire; and the indexes of its Buttons, at most six, are 1,
    ..., N in some order. *)
Theorem isSWComponentsSetValid_accepts (l : list value) (type : value) :
  status (isSWComponentsSetValid (VArray l) type) = true
  ↔ l ≠ []
    ∧ Forall (λ v, is_component v = true) l
    ∧ length (images_of l) = 1
    ∧ length (icons_of l) ≤ 1
    ∧ (non_basic type → length (icons_of l) = 1)
    ∧ length (inputs_of l) ≤ 1
    ∧ ¬ app_button_rule_fires l type
    ∧ length (buttons_of l) ≤ 6
    ∧ button_index <$> buttons_of l ≡ₚ one_to (length (buttons_of l)).
Proof. apply accepted_iff. Qed.

Lemma isSWComponentsSetValid_accepts_witness :
  length (images_of (sample_widget [1; 2]%Z)) = 1.
Proof.
  apply (isSWComponentsSetValid_accepts (sample_widget [1; 2]%Z) (VString "basic")).
  vm_compute. reflexivity.
Defined.

Lemma components_length (l : list value) :
  Forall (λ v, is_component v = true) l →
  length l = length (icons_of l) + length (images_of l)
             + length (inputs_of l) + length (buttons_of l).
Proof.
  induction 1 as [|v l Hv _ IH]; [done|].
  unfold icons_of, images_of, inputs_of, buttons_of in *.
  destruct v; try discriminate Hv; cbn; lia.
Qed.

Lemma accepted_size (l : list value) (type : value) :
  status (isSWComponentsSetValid (VArray l) type) = true →
  1 ≤ length l ≤ 9.
Proof.
  intros (Hne & Hc & Himg & Hico & _ & Hinp & _ & Hb & _)%accepted_iff.
  rewrite (components_length l Hc). lia.
Qed.

(** X3. An accepted list has from one to nine elements. *)
Theorem isSWComponentsSetValid_size (l : list value) (type : value) :
  status (isSWComponentsSetValid (VArray l) type) = true →
  1 ≤ length l ≤ 9.
Proof. apply accepted_size. Qed.

Lemma isSWComponentsSetValid_size_witness :
  1 ≤ length (sample_widget [1; 2]%Z) ≤ 9.
Proof.
  apply (isSWComponentsSetValid_size _ (VString "basic")). vm_compute. reflexivity.
Defined.

(** X4. In an accepted list the index of every Button is a whole number
    from 1 to the number of Buttons, which is at most 6: a Button of
    index -1, 1.5, 7 or [NaN] makes any list fail. *)
Theorem isSWComponentsSetValid_index_range
    (l : list value) (type : value) (b : Button) :
  status (isSWComponentsSetValid (VArray l) type) = true →
  VButton b ∈ l →
  ∃ k : nat, button_index b = of_nat k
             ∧ 1 ≤ k ≤ length (buttons_of l) ∧ length (buttons_of l) ≤ 6.
Proof.
  intros (_ & _ & _ & _ & _ & _ & _ & Hn & Hp)%accepted_iff Hb.
  assert (button_index b ∈ one_to (length (buttons_of l))) as Hin.
  { rewrite <- Hp. apply list_elem_of_fmap_2, list_elem_of_omap. by exists (VButton b). }
  apply list_elem_of_fmap in Hin as (k & -> & Hk%elem_of_seq). exists k.
  split; [done|lia].
Qed.

Lemma isSWComponentsSetValid_index_range_witness :
  ∃ k : nat, Integer 2 = of_nat k ∧ 1 ≤ k ≤ 2 ∧ 2 ≤ 6.
Proof.
  apply (isSWComponentsSetValid_index_range (sample_widget [1; 2]%Z)
           (VString "basic")
           {| button_index := Integer 2; button_label := "Click Me";
              button_type := "redirect"; button_url := "https://example.com" |}).
  - vm_compute. reflexivity.
  - do 2 right. left.
Defined.

(** X5. The rules of "action" and of "tool" are the same rules, and
    they are the stricter ones: what they accept is accepted under any
    other type. *)
Theorem isSWComponentsSetValid_types (instance type : value) :
  isSWComponentsSetValid instance (VString "action")
  = isSWComponentsSetValid instance (VString "tool")
  ∧ (status (isSWComponentsSetValid instance (VString "action")) = true →
     status (isSWComponentsSetValid instance type) = true).
Proof.
  split; [done|]. destruct instance as [| | | | |l| | | | | | |]; try done.
  rewrite !accepted_iff.
  intros (? & ? & ? & ? & Hico & ? & Happ & ? & ?). repeat split; try done.
  - intros _. by apply Hico.
  - intros (_ & Hfires). apply Happ. by split.
Qed.

Lemma isSWComponentsSetValid_types_witness :
  status (isSWComponentsSetValid
            (VArray [sample_icon; sample_image; sample_button "app" 1])
            VUndefined) = true.
Proof.
  apply (isSWComponentsSetValid_types
           (VArray [sample_icon; sample_image; sample_button "app" 1]) VUndefined).
  vm_compute. reflexivity.
Defined.

(** X6. The verdict does not depend on the order of the list. *)
Theorem isSWComponentsSetValid_Permutation (l l' : list value) (type : value) :
  l ≡ₚ l' →
  isSWComponentsSetValid (VArray l) type = isSWComponentsSetValid (VArray l') type.
Proof.
  intros Hp.
  destruct (decide (l = [])) as [->|Hne].
  { by apply Permutation_nil_l in Hp as ->. }
  assert (l' ≠ []) as Hne'.
  { intros ->. by apply Permutation_nil_r in Hp. }
  destruct (forallb is_component l) eqn:Hc.
  - assert (forallb is_component l' = true) as Hc'.
    { apply forallb_is_component. rewrite <- Hp. by apply forallb_is_component. }
    rewrite !isSWComponentsSetValid_components by done. unfold rules.
    assert (images_of l ≡ₚ images_of l') as Himg by (unfold images_of; by rewrite Hp).
    assert (icons_of l ≡ₚ icons_of l') as Hico by (unfold icons_of; by rewrite Hp).
    assert (inputs_of l ≡ₚ inputs_of l') as Hinp by (unfold inputs_of; by rewrite Hp).
    assert (buttons_of l ≡ₚ buttons_of l') as Hb by (unfold buttons_of; by rewrite Hp).
    rewrite (Permutation_length Himg), (Permutation_length Hico),
      (Permutation_length Hinp), (Permutation_length Hb).
    assert (bool_decide ("app" ∈ button_type <$> buttons_of l)
            = bool_decide ("app" ∈ button_type <$> buttons_of l')) as ->
      by (apply bool_decide_ext; by rewrite Hb).
    assert (isConsecutiveArray (button_index <$> buttons_of l)
            = isConsecutiveArray (button_index <$> buttons_of l')) as ->; [|done].
    apply eq_true_iff_eq. rewrite !isConsecutiveArray_arrangement, !length_fmap.
    rewrite (Permutation_length Hb).
    assert (button_index <$> buttons_of l ≡ₚ button_index <$> buttons_of l')
      as Hidx by (by rewrite Hb).
    split; intros (Hnil & Hn & Hone); repeat split; try done.
    + intros Heq. apply Hnil. apply Permutation_nil_r. by rewrite Hidx, Heq.
    + by rewrite <- Hidx.
    + intros Heq. apply Hnil. apply Permutation_nil_r. by rewrite <- Hidx, Heq.
    + by rewrite Hidx.
  - assert (forallb is_component l' = false) as Hc'.
    { apply not_true_iff_false. rewrite forallb_is_component, <- Hp,
        <- forallb_is_component. by rewrite Hc. }
    unfold isSWComponentsSetValid. destruct l, l'; try done.
    by rewrite !classify_spec, Hc, Hc'.
Qed.

Lemma isSWComponentsSetValid_Permutation_witness :
  isSWComponentsSetValid
    (VArray [sample_button "redirect" 1; sample_image]) (VString "basic")
  = isSWComponentsSetValid
      (VArray [sample_image; sample_button "redirect" 1]) (VString "basic").
Proof.
  apply isSWComponentsSetValid_Permutation. apply Permutation_swap.
Defined.

Lemma forallb_is_component_false (l : list value) :
  forallb is_component l = false ↔ ∃ v, v ∈ l ∧ is_component v = false.
Proof.
  rewrite <- not_true_iff_false, forallb_is_component, <- Exists_Forall_neg,
    Exists_exists.
  - by setoid_rewrite not_true_iff_false.
  - intros x. destruct (is_component x); [left|right]; done.
Qed.

(** X7. The two failures that come first. Anything but a non-empty
    array fails for not being one, and only that does; a non-empty array
    with an element that is none of the four components fails for that
    element, whatever else is wrong with it, and only such an array
    does. *)
Theorem isSWComponentsSetValid_first_failures (instance type : value) :
  (isSWComponentsSetValid instance type = failed msg_not_array
   ↔ ∀ l, instance = VArray l → l = [])
  ∧ (isSWComponentsSetValid instance type = failed msg_not_component
     ↔ ∃ l v, instance = VArray l ∧ v ∈ l ∧ is_component v = false).
Proof.
  destruct instance as [| | | | |l| | | | | | |];
    try (split; split;
         [by intros _ ? [=] | done | intros [=] | by intros (? & ? & [=] & _)]).
  destruct (decide (l = [])) as [->|Hne].
  { split; split.
    - by intros _ l [= <-].
    - done.
    - intros [=].
    - intros (l & v & [= Heq] & Hv & _). subst l. inversion Hv. }
  destruct (forallb is_component l) eqn:Hc.
  - rewrite isSWComponentsSetValid_components by done. split; split.
    + unfold rules. cbn zeta. repeat case_match; discriminate.
    + intros H. destruct Hne. by apply H.
    + unfold rules. cbn zeta. repeat case_match; discriminate.
    + intros (l' & v & [= Heq] & Hv). subst l'.
      assert (forallb is_component l = false) as Hf
        by (apply forallb_is_component_false; by exists v).
      congruence.
  - assert (isSWComponentsSetValid (VArray l) type = failed msg_not_component) as ->.
    { unfold isSWComponentsSetValid. destruct l; [done|].
      by rewrite classify_spec, Hc. }
    split; split; try done.
    + intros H. destruct Hne. by apply H.
    + intros _. apply forallb_is_component_false in Hc as (v & Hv). by exists l, v.
Qed.

Lemma isSWComponentsSetValid_first_failures_witness :
  isSWComponentsSetValid (VArray [sample_image; VString "button"]) (VString "basic")
  = failed msg_not_component.
Proof.
  apply isSWComponentsSetValid_first_failures.
  exists [sample_image; VString "button"], (VString "button").
  split; [done|]. split; [right; left|done].
Defined.

(** ** The URL validator, context by context *)

Lemma isURLValid_string (s : string) (type : value) :
  isURLValid (VString s) type
  = Return
      (if web_context type && negb (web_prefix s) then failed "Invalid URL"
       else if is_string type "nostr" && negb (nostr_prefix s)
       then failed "Invalid nostr URL schema"
       else if is_string type "zap" && negb (zap_address s)
       then failed "Invalid zap URL, it must be a valid email address, lnurl* address or an lnbc* invoice"
       else passed).
Proof.
  unfold isURLValid, web_context, web_prefix, nostr_prefix, zap_address,
    and_then, or_else, not_, startsWith, length_gt.
  cbn [mbind completion_bind mret completion_ret test_emailAddrRegex].
  repeat (case_match; cbn [mbind completion_bind mret completion_ret negb andb orb];
          try reflexivity; try discriminate).
Qed.

Ltac in_list := repeat first [by left | right].
Ltac not_in_list :=
  let H := fresh in
  intros H; repeat (apply elem_of_cons in H as [H|H]; [discriminate H|]);
  inversion H.

Lemma web_context_not_string (type : value) (t : string) :
  t ∉ [""; "redirect"; "post"; "app"] →
  web_context type = true → is_string type t = false.
Proof.
  intros Ht Hw. destruct type; try done. cbn. apply bool_decide_eq_false.
  intros ->. unfold web_context, includes in Hw. cbn in Hw.
  rewrite !bool_decide_eq_false_2 in Hw by (intros ->; apply Ht; in_list).
  done.
Qed.

Lemma isURLValid_passed_iff (s : string) (type : value) :
  isURLValid (VString s) type = Return passed
  ↔ (web_context type = true → web_prefix s = true)
    ∧ (type = VString "nostr" → nostr_prefix s = true)
    ∧ (type = VString "zap" → zap_address s = true).
Proof.
  rewrite isURLValid_string.
  assert (∀ t, is_string type t = true ↔ type = VString t) as His.
  { intros t. destruct type; try done. cbn. rewrite bool_decide_eq_true.
    split; [by intros ->|by intros [= ->]]. }
  destruct (web_context type) eqn:Hweb.
  - rewrite (web_context_not_string type "nostr"), (web_context_not_string type "zap")
      by (done || not_in_list).
    cbn [andb]. destruct (web_prefix s); cbn [negb].
    + split; [|done]. intros _. repeat split; try done.
      all: intros ->; discriminate Hweb.
    + split; [discriminate|]. intros (H & _). by specialize (H eq_refl).
  - cbn [andb]. destruct (is_string type "nostr") eqn:Hn.
    + apply His in Hn as ->. cbn. destruct (nostr_prefix s); cbn.
      * split; [|done]. intros _. repeat split; try done.
      * split; [discriminate|]. intros (_ & H & _). by specialize (H eq_refl).
    + cbn [andb]. destruct (is_string type "zap") eqn:Hz.
      * apply His in Hz as ->. destruct (zap_address s); cbn.
        -- split; [|done]. intros _. repeat split; try done.
        -- split; [discriminate|]. intros (_ & _ & H). by specialize (H eq_refl).
      * cbn. split; [|done]. intros _. repeat split; try done.
        -- intros ->. discriminate Hn.
        -- intros ->. discriminate Hz.
Qed.

(** X8. A url that is a string is valid exactly when it meets the
    condition of its context: a web prefix when there is no context or
    the context is redirect, post or app; a nostr prefix in the nostr
    context; an email address or a long enough lnurl or lnbc string in
    the zap context. *)
Theorem isURLValid_accepts (s : string) (type : value) :
  isURLValid (VString s) type = Return passed
  ↔ (web_context type = true → web_prefix s = true)
    ∧ (type = VString "nostr" → nostr_prefix s = true)
    ∧ (type = VString "zap" → zap_address s = true).
Proof. apply isURLValid_passed_iff. Qed.

Lemma isURLValid_accepts_witness :
  isURLValid (VString "nostr:npub1xyz") (VString "nostr") = Return passed.
Proof.
  apply isURLValid_accepts. repeat split; done.
Defined.

(** X9. In a context that is none of the five known ones (and not
    absent), nothing is asked of the url: every value is valid, and the
    url is not even looked at. *)
Theorem isURLValid_unknown_context (url type : value) :
  toBoolean type = true →
  includes ["redirect"; "post"; "app"; "nostr"; "zap"] type = false →
  isURLValid url type = Return passed.
Proof.
  intros Hb Hi. unfold isURLValid, and_then.
  assert (includes ["redirect"; "post"; "app"] type = false
          ∧ is_string type "nostr" = false ∧ is_string type "zap" = false)
    as (-> & -> & ->).
  { unfold includes in *. cbn in *.
    destruct (is_string type "redirect"), (is_string type "post"),
      (is_string type "app"), (is_string type "nostr"), (is_string type "zap");
      done. }
  by rewrite Hb.
Qed.

Lemma isURLValid_unknown_context_witness :
  isURLValid VUndefined (VString "link") = Return passed.
Proof. by apply isURLValid_unknown_context. Defined.

(** X10. The values of the model other than the strings ([undefined],
    [null], the booleans, the numbers, the arrays, the plain objects and
    the instances of the library's classes) have no [startsWith] to
    call: with such a url the validator throws a [TypeError] whenever
    the context asks for a web or a nostr prefix. *)
Theorem isURLValid_no_startsWith (url type : value) :
  no_startsWith url →
  web_context type = true ∨ type = VString "nostr" →
  isURLValid url type = Throw TypeError.
Proof.
  intros Hurl Ht. unfold isURLValid, and_then, or_else, not_.
  assert (∀ p, startsWith url p = Throw TypeError) as Hs.
  { intros p. by destruct url. }
  destruct Ht as [Hweb | ->].
  - unfold web_context in Hweb. rewrite Hweb. cbn. by rewrite !Hs.
  - destruct (negb _ || _); cbn; by rewrite !Hs.
Qed.

Lemma isURLValid_no_startsWith_witness :
  isURLValid (VNumber (Integer 42)) (VString "redirect") = Throw TypeError.
Proof.
  apply isURLValid_no_startsWith; [exact I|]. left. reflexivity.
Defined.

(** ** The component constructors *)

(** X11. From a string, an Icon, and an Image, is constructed when
    the string starts with [https://], [http://] or [data:image/], and
    holds that string; from any other string the constructor throws the
    [Error] "Invalid URL". *)
Theorem Icon_Image_constructor_string (s : string) :
  Icon_constructor (VString s)
  = (if web_prefix s then Return {| icon_url := s |}
     else Throw (Error "Invalid URL"))
  ∧ Image_constructor (VString s)
    = (if web_prefix s then Return {| image_url := s |}
       else Throw (Error "Invalid URL")).
Proof.
  unfold Icon_constructor, Image_constructor. rewrite isURLValid_string.
  cbn [mbind completion_bind web_context toBoolean negb orb andb is_string].
  change (bool_decide ("nostr" = "")) with false.
  by destruct (web_prefix s).
Qed.

Lemma url_fits_isURLValid (t u : string) :
  t ∈ button_types →
  isURLValid (VString u) (VString t) = Return passed ↔ url_fits t u = true.
Proof.
  intros Ht. rewrite isURLValid_passed_iff. unfold url_fits, button_types in *.
  repeat (apply elem_of_cons in Ht as [->|Ht]); [..|inversion Ht]; cbn.
  all: split; [intros (Hw & Hn & Hz); (by apply Hw) || (by apply Hn) || (by apply Hz)|].
  all: intros H; repeat split; (done || by intros _).
Qed.

(** X12. What a constructed Button is made of: a number other than
    zero, a label and a url that are non-empty strings, one of the five
    types, and a url that fits the type; and the Button holds exactly
    these four arguments. Nothing else is constructed. *)
Theorem Button_constructor_Return (index label type url : value) (b : Button) :
  Button_constructor index label type url = Return b
  ↔ index = VNumber (button_index b) ∧ button_index b ≠ Integer 0
    ∧ label = VString (button_label b) ∧ button_label b ≠ ""
    ∧ type = VString (button_type b) ∧ button_type b ∈ button_types
    ∧ url = VString (button_url b) ∧ button_url b ≠ ""
    ∧ url_fits (button_type b) (button_url b) = true.
Proof.
  split.
  - unfold Button_constructor.
    destruct index as [| | |n| | | | | | | | |]; try discriminate.
    destruct (number_strict_equals n (Integer 0)) eqn:Hn; [discriminate|].
    destruct label as [| | | |l| | | | | | | |]; try discriminate.
    cbn [toBoolean]. case_bool_decide as Hl; [discriminate|]. cbn [negb].
    destruct (includes button_types type) eqn:Ht; [|discriminate]. cbn [negb].
    destruct type as [| | | |t| | | | | | | |]; try discriminate.
    destruct url as [| | | |u| | | | | | | |]; try discriminate.
    cbn [toBoolean]. case_bool_decide as Hu; [discriminate|]. cbn [negb].
    destruct (isURLValid (VString u) (VString t)) as [c|] eqn:Hc; [|discriminate].
    cbn. destruct (status c) eqn:Hst; [|discriminate]. intros [= <-]. cbn.
    assert (t ∈ button_types) as Hin.
    { apply existsb_exists in Ht as (t' & Hin%list_elem_of_In & Heq).
      cbn in Heq. by apply bool_decide_eq_true in Heq as ->. }
    repeat split; try done.
    + by intros ->.
    + apply url_fits_isURLValid; [done|]. rewrite Hc. f_equal.
      rewrite isURLValid_string in Hc. injection Hc as <-.
      by repeat case_match.
  - intros (-> & Hn & -> & Hl & -> & Ht & -> & Hu & Hfits).
    destruct b as [n l t u]. cbn in *.
    apply Button_constructor_index; try done.
    by apply url_fits_isURLValid.
Qed.

Lemma Button_constructor_Return_witness :
  Button_constructor (VNumber (Integer 1)) (VString "Zap me") (VString "zap")
    (VString "alice@example.com")
  = Return {| button_index := Integer 1; button_label := "Zap me";
              button_type := "zap"; button_url := "alice@example.com" |}.
Proof.
  apply Button_constructor_Return. cbn. repeat split; try done.
  unfold button_types. in_list.
Defined.

(** ** The encoder *)

Lemma tags_Permutation (l : list value) :
  icon_image_tags l ++ input_tags l ++ (button_tag <$> buttons_of l)
  ≡ₚ omap tag_of l.
Proof.
  unfold icon_image_tags, input_tags, inputs_of, buttons_of.
  induction l as [|v l IH]; [done|].
  destruct v; cbn; try done; rewrite <- IH.
  - done.
  - done.
  - symmetry. apply Permutation_middle.
  - rewrite !app_assoc. symmetry. apply Permutation_middle.
Qed.

Lemma getProps_tags (this : SWComponentsSet) :
  SWComponentsSet_getProps this ≡ₚ omap tag_of (elements_of (components this)).
Proof.
  destruct this as [c]. rewrite getProps_sorted. cbn [components]. cbn zeta.
  by rewrite sort_Permutation, tags_Permutation.
Qed.

(** X13. The encoding holds the tag of each component of the set, once:
    nothing is dropped, nothing is added, only the order changes. *)
Theorem getProps_Permutation (this : SWComponentsSet) :
  SWComponentsSet_getProps this ≡ₚ omap tag_of (elements_of (components this)).
Proof. apply getProps_tags. Qed.

Lemma tag_of_length (l : list value) :
  Forall (λ v, is_component v = true) l → length (omap tag_of l) = length l.
Proof.
  induction 1 as [|v l Hv _ IH]; [done|].
  destruct v; try discriminate Hv; cbn; by rewrite IH.
Qed.

(** X14. A constructed set encodes into as many tags as it has
    components, from one to nine. *)
Theorem getProps_length (comps smartWidgetInstance : value)
    (this : SWComponentsSet) :
  SWComponentsSet_constructor comps smartWidgetInstance = Return this →
  length (SWComponentsSet_getProps this) = length (elements_of comps)
  ∧ 1 ≤ length (SWComponentsSet_getProps this) ≤ 9.
Proof.
  intros (-> & type & Hv)%SWComponentsSet_constructor_Return.
  pose proof (isSWComponentsSetValid_elements _ _ Hv) as Hc. rewrite Hc in Hv.
  pose proof (accepted_size _ _ Hv) as Hsize.
  apply accepted_iff in Hv as (_ & Hall & _).
  rewrite getProps_tags. cbn [components].
  rewrite (tag_of_length _ Hall). split; [done|lia].
Qed.

Lemma getProps_length_witness :
  length (SWComponentsSet_getProps
            {| components := VArray (sample_widget [2; 1]%Z) |}) = 3.
Proof.
  apply (getProps_length (VArray (sample_widget [2; 1]%Z)) VUndefined).
  reflexivity.
Defined.

(** ** The widget facade *)

Lemma getNostrEvent_template (ndk : NDK) (s : string) (c identifier : value)
    (type nanoid : string) :
  getNostrEvent ndk s (SWComponentsSet_getProps {| components := c |})
    (or_default identifier (VString "")) type nanoid
  = ndk_sign ndk (event_template s c identifier type nanoid).
Proof.
  unfold getNostrEvent, event_template. do 4 f_equal.
  destruct identifier as [| | | |i| | | | | | | |]; try done.
  cbn. by case_bool_decide.
Qed.

(** X15. [signEvent] checks the title, then the components, and only
    then calls the signer. With a title that is not a string it throws
    the title error, and with a string title and components that are not
    a component set the components error, without signing. Otherwise it
    hands to the signer an event of kind 30033 whose content is the
    title and whose tags are ["d"] with the identifier (the caller's if
    it is a non-empty string, a generated one otherwise), ["l"] with the
    type of the widget, and then the tags of the set; and it returns
    what the signer returns, or is rejected as the signer rejects. *)
Theorem SW_signEvent_signs (this : SW) (comps title identifier : value)
    (nanoid : string) :
  ((∀ s, title ≠ VString s) →
   SW_signEvent this comps title identifier nanoid = Throw (Error msg_title))
  ∧ (∀ s, title = VString s → (∀ c, comps ≠ VSWComponentsSet c) →
       SW_signEvent this comps title identifier nanoid
       = Throw (Error msg_components))
  ∧ (∀ s c, title = VString s → comps = VSWComponentsSet c →
       SW_signEvent this comps title identifier nanoid
       = ndk_sign (sw_ndkInstance this)
           (event_template s c identifier (sw_type this) nanoid)).
Proof.
  unfold SW_signEvent. split; [|split].
  - intros Ht. by rewrite isTitleValid_other.
  - intros s -> Hc. destruct comps; try done. by destruct (Hc comps).
  - intros s c -> ->. cbn [isTitleValid typeof negb content_of].
    change (bool_decide ("string" = "string")) with true. cbn [negb].
    rewrite getNostrEvent_template. by destruct (ndk_sign _ _).
Qed.

Lemma SW_signEvent_signs_witness :
  SW_signEvent {| sw_type := "basic"; sw_relaySet := []; sw_secretKey := "";
                  sw_ndkInstance := sample_ndk |}
    (VSWComponentsSet (VArray (sample_widget [1]%Z))) (VString "My Widget")
    VUndefined "V1StGXR8"
  = Return {| kind := 30033; content := "My Widget";
              tags := [["d"; "V1StGXR8"]; ["l"; "basic"];
                       ["image"; "https://example.com/image.jpg"];
                       ["button"; "Click Me"; "redirect"; "https://example.com"];
                       ["client"; "sample"]] |}.
Proof.
  pose proof (SW_signEvent_signs
    {| sw_type := "basic"; sw_relaySet := []; sw_secretKey := "";
       sw_ndkInstance := sample_ndk |}
    (VSWComponentsSet (VArray (sample_widget [1]%Z))) (VString "My Widget")
    VUndefined "V1StGXR8") as (_ & _ & H).
  rewrite (H "My Widget" (VArray (sample_widget [1]%Z)) eq_refl eq_refl).
  reflexivity.
Defined.



(** ** The event collector, for any arrivals *)

Lemma event_loop_received (timeout due : nat) (arrivals : list (nat * NDKEvent))
    (events : list value) (pubkeys : list string) :
  ∃ k, k ≤ length arrivals
       ∧ timely timeout due (take k arrivals)
       ∧ (∀ arrival, arrivals !! k = Some arrival →
                     last_due timeout due (take k arrivals) ≤ arrival.1)
       ∧ event_loop timeout arrivals
           {| closure.events := events; closure.pubkeys := pubkeys;
              closure.timer := Some due |}
         = (take k arrivals ≫= rearm timeout)
           ++ [stop;
               resolve (last_due timeout due (take k arrivals))
                 {| data := events ++ (rawEvent ∘ snd <$> take k arrivals);
                    pubkeys := unique (pubkeys
                                       ++ (pubkey ∘ snd <$> take k arrivals)) |}].
Proof.
  revert due events pubkeys.
  induction arrivals as [|[now event] rest IH]; intros due events pubkeys.
  - exists 0. cbn. rewrite !app_nil_r. repeat split; [lia|done].
  - cbn [event_loop closure.timer]. destruct (Nat.ltb_spec now due) as [Hlt|Hge].
    + cbn [on_event startTimer closure.events closure.pubkeys closure.timer].
      destruct (IH (now + timeout) (events ++ [rawEvent event])
                  (pubkeys ++ [pubkey event])) as (k & Hk & Ht & Hlate & ->).
      exists (S k). cbn. rewrite <- !app_assoc. repeat split; (lia || done).
    + exists 0. cbn. rewrite !app_nil_r. repeat split; [lia|].
      by intros arrival [= <-].
Qed.

(** X17. Whatever the arrivals, a collector with a filter settles, and
    once: it subscribes, arms the timer, takes the events up to the
    first one that comes when the timer is due or later (all of them if
    there is none), re-arming for each, then stops the subscription and
    resolves with those events, in order, and their author keys, each
    once. The events after that one are not in the result. *)
Theorem getSubData_settles
    (f : gmap string value) (filter : list (gmap string value))
    (timeout : nat) (arrivals : list (nat * NDKEvent)) :
  ∃ k, k ≤ length arrivals
       ∧ timely timeout timeout (take k arrivals)
       ∧ (∀ arrival, arrivals !! k = Some arrival →
                     last_due timeout timeout (take k arrivals) ≤ arrival.1)
       ∧ getSubData (Some (f :: filter)) timeout arrivals
         = subscribe (strip <$> f :: filter) subscribe_options
           :: setTimeout timeout
           :: (take k arrivals ≫= rearm timeout)
           ++ [stop;
               resolve (last_due timeout timeout (take k arrivals))
                 {| data := rawEvent ∘ snd <$> take k arrivals;
                    pubkeys := unique (pubkey ∘ snd <$> take k arrivals) |}].
Proof.
  destruct (event_loop_received timeout timeout arrivals [] [])
    as (k & Hk & Ht & Hlate & Heq).
  exists k. do 3 (split; [done|]).
  unfold getSubData.
  cbn [startTimer closure.timer closure.events closure.pubkeys app].
  change (0 + timeout) with timeout. by rewrite Heq.
Qed.

Lemma getSubData_settles_witness :
  ∃ k, k ≤ 2
       ∧ getSubData (Some [∅]) 1000
           [(100, sample_event "alice" 1); (1100, sample_event "bob" 2)]
         = subscribe [∅] subscribe_options
           :: setTimeout 1000
           :: (take k [(100, sample_event "alice" 1); (1100, sample_event "bob" 2)]
               ≫= rearm 1000)
           ++ [stop;
               resolve (last_due 1000 1000
                          (take k [(100, sample_event "alice" 1);
                                   (1100, sample_event "bob" 2)]))
                 {| data := rawEvent ∘ snd
                              <$> take k [(100, sample_event "alice" 1);
                                          (1100, sample_event "bob" 2)];
                    pubkeys := unique
                      (pubkey ∘ snd <$> take k [(100, sample_event "alice" 1);
                                                (1100, sample_event "bob" 2)]) |}].
Proof.
  destruct (getSubData_settles ∅ [] 1000
              [(100, sample_event "alice" 1); (1100, sample_event "bob" 2)])
    as (k & Hk & _ & _ & Heq).
  exists k. split; [exact Hk|exact Heq].
Defined.




(** X19. What the stripping does to one filter. It is left as it is
    exactly when it has no ["#t"] or a truthy one; afterwards a ["#t"],
    if there is one, is truthy; no key is added; and stripping twice is
    stripping once. *)
Theorem strip_filter (f : gmap string value) :
  (strip f = f ↔ ∀ v, f !! "#t" = Some v → ¬ falsy v)
  ∧ (∀ v, strip f !! "#t" = Some v → ¬ falsy v)
  ∧ dom (strip f) ⊆ dom f
  ∧ strip (strip f) = strip f.
Proof.
  assert (∀ v, strip f !! "#t" = Some v → ¬ falsy v) as Htruthy.
  { intros v. rewrite strip_lookup_t. unfold falsy.
    destruct (f !! "#t") as [w|]; [|done].
    destruct (toBoolean w) eqn:Hw; [|done]. intros [= <-]. congruence. }
  split; [|split; [done|split]].
  - split.
    + intros Heq v Hv. apply Htruthy. by rewrite Heq.
    + intros H. apply map_eq. intros k. destruct (decide (k = "#t")) as [->|Hk].
      * rewrite strip_lookup_t. destruct (f !! "#t") as [v|] eqn:Hv; [|done].
        specialize (H v eq_refl). unfold falsy in H. by destruct (toBoolean v).
      * by apply strip_lookup_ne.
  - unfold strip. destruct (negb _); [|done]. rewrite dom_delete_L. by apply subseteq_difference_l.
  - apply map_eq. intros k. destruct (decide (k = "#t")) as [->|Hk].
    + rewrite strip_lookup_t. destruct (strip f !! "#t") as [v|] eqn:Hv; [|done].
      specialize (Htruthy v eq_refl). unfold falsy in Htruthy.
      by destruct (toBoolean v).
    + by rewrite !strip_lookup_ne.
Qed.

Lemma strip_filter_witness :
  strip {[ "#t" := VArray [VString "widget"]; "limit" := VNumber (Integer 0) ]}
  = {[ "#t" := VArray [VString "widget"]; "limit" := VNumber (Integer 0) ]}.
Proof.
  apply strip_filter. intros v Hv. vm_compute in Hv. injection Hv as <-.
  discriminate.
Defined.

(** ** Hexadecimal encoding *)

Lemma octet_shape (b : Byte.byte) :
  ∃ c1 c2, octet b = String c1 (String c2 "")
           ∧ c1 ∈ hex_chars ∧ c2 ∈ hex_chars
           ∧ octet_value (octet b) = Byte.to_N b.
Proof.
  destruct b; vm_compute; do 2 eexists; (split; [reflexivity|]);
    (split; [in_list|]); (split; [in_list|reflexivity]).
Qed.

Lemma bytesTohex_cons (b : Byte.byte) (buff : list Byte.byte) :
  bytesTohex (b :: buff) = octet b +:+ bytesTohex buff.
Proof.
  unfold bytesTohex. cbn zeta. rewrite fmap_cons. fold (octet b).
  destruct (octet_shape b) as (c1 & c2 & -> & _).
  by destruct buff.
Qed.

(** X20. The hex string of a buffer has two characters for each byte,
    all of them among [0-9a-f]. *)
Theorem bytesTohex_length (buff : list Byte.byte) :
  String.length (bytesTohex buff) = 2 * length buff
  ∧ Forall (λ c, c ∈ hex_chars) (String.list_ascii_of_string (bytesTohex buff)).
Proof.
  induction buff as [|b buff [IHlen IHchars]]; [by split|].
  rewrite bytesTohex_cons. destruct (octet_shape b) as (c1 & c2 & -> & H1 & H2 & _).
  change (String c1 (String c2 "") +:+ bytesTohex buff)
    with (String c1 (String c2 (bytesTohex buff))).
  cbn [String.length String.list_ascii_of_string length]. split; [lia|].
  by do 2 (constructor; [done|]).
Qed.

(** X21. Different buffers have different hex strings. *)
Theorem bytesTohex_inj (buff buff' : list Byte.byte) :
  bytesTohex buff = bytesTohex buff' → buff = buff'.
Proof.
  revert buff'. induction buff as [|b buff IH]; intros [|b' buff'].
  - done.
  - rewrite bytesTohex_cons. destruct (octet_shape b') as (c1 & c2 & -> & _).
    discriminate.
  - rewrite bytesTohex_cons. destruct (octet_shape b) as (c1 & c2 & -> & _).
    discriminate.
  - rewrite !bytesTohex_cons.
    destruct (octet_shape b) as (c1 & c2 & Hb & _ & _ & Hv).
    destruct (octet_shape b') as (c1' & c2' & Hb' & _ & _ & Hv').
    rewrite Hb, Hb'. cbn. intros [= -> -> Hrest].
    f_equal; [|by apply IH].
    assert (Byte.to_N b = Byte.to_N b') as Hn by (by rewrite <- Hv, <- Hv', Hb, Hb').
    pose proof (Byte.of_to_N b) as Hof. rewrite Hn, Byte.of_to_N in Hof.
    by injection Hof.
Qed.

Lemma bytesTohex_inj_witness : [Byte.x0a; Byte.xff] = [Byte.x0a; Byte.xff].
Proof. apply bytesTohex_inj. reflexivity. Defined.

(** X22. The hex string of two buffers put together is the two hex
    strings put together. *)
Theorem bytesTohex_app (buff buff' : list Byte.byte) :
  bytesTohex (buff ++ buff') = bytesTohex buff +:+ bytesTohex buff'.
Proof.
  induction buff as [|b buff IH]; [done|].
  rewrite <- app_comm_cons, !bytesTohex_cons, IH.
  destruct (octet_shape b) as (c1 & c2 & -> & _). reflexivity.
Qed.

(** ** The email expression *)

Lemma append_cons (c : ascii) (s1 s2 : string) :
  String c s1 +:+ s2 = String c (s1 +:+ s2).
Proof. reflexivity. Qed.

Lemma append_nil_l (s : string) : "" +:+ s = s.
Proof. reflexivity. Qed.

Lemma append_nil_inv (s1 s2 : string) : s1 +:+ s2 = "" → s1 = "" ∧ s2 = "".
Proof. destruct s1; [by rewrite append_nil_l|by rewrite append_cons]. Qed.

Lemma append_assoc (s1 s2 s3 : string) : (s1 +:+ s2) +:+ s3 = s1 +:+ (s2 +:+ s3).
Proof.
  induction s1 as [|c s1 IH]; [done|]. rewrite !append_cons. by f_equal.
Qed.

Lemma append_nil_r (s : string) : s +:+ "" = s.
Proof. induction s as [|c s IH]; [done|]. rewrite append_cons. by f_equal. Qed.

Lemma nullable_matches (r : regex) : nullable r = true ↔ matches r "".
Proof.
  split.
  - induction r; cbn; try done.
    + intros _. constructor.
    + intros [H1 H2]%andb_true_iff. rewrite <- (append_nil_l ""). constructor; auto.
    + intros [H|H]%orb_true_iff; [apply matches_Alt_l|apply matches_Alt_r]; auto.
    + intros _. constructor.
  - intros H. remember "" as s eqn:Hs. induction H; cbn; try done.
    + apply append_nil_inv in Hs as [-> ->]. rewrite IHmatches1, IHmatches2; done.
    + by rewrite IHmatches.
    + rewrite IHmatches by done. apply orb_true_r.
Qed.

Lemma deriv_matches (r : regex) (c : ascii) (s : string) :
  matches (deriv c r) s ↔ matches r (String c s).
Proof.
  split.
  - revert s. induction r as [| |p|r1 IH1 r2 IH2|r1 IH1 r2 IH2|r IH]; intros s; cbn.
    + inversion 1.
    + inversion 1.
    + destruct (p c) eqn:Hp; inversion 1. by constructor.
    + destruct (nullable r1) eqn:Hn.
      * inversion 1 as [| | | ? ? ? Hcat | ? ? ? Hr2 | |]; subst.
        -- inversion Hcat; subst.
           rewrite <- append_cons. constructor; auto.
        -- rewrite <- (append_nil_l (String c s)).
           constructor; [by apply nullable_matches|auto].
      * inversion 1; subst.
        rewrite <- append_cons. constructor; auto.
    + inversion 1; subst; [apply matches_Alt_l|apply matches_Alt_r]; auto.
    + inversion 1; subst.
      rewrite <- append_cons. constructor; auto.
  - intros H. remember (String c s) as s' eqn:Hs. revert c s Hs.
    induction H as [|p c' Hp|r1 r2 s1 s2 H1 IH1 H2 IH2|r1 r2 s' H IH|r1 r2 s' H IH
                   | |r s1 s2 H1 IH1 H2 IH2]; intros c s Hs; cbn.
    + done.
    + injection Hs as -> <-. rewrite Hp. constructor.
    + destruct s1 as [|c1 s1]; [rewrite append_nil_l in Hs|rewrite append_cons in Hs].
      * subst s2. apply nullable_matches in H1 as ->. apply matches_Alt_r. auto.
      * injection Hs as -> <-.
        destruct (nullable r1); [apply matches_Alt_l|]; constructor; auto.
    + apply matches_Alt_l. auto.
    + apply matches_Alt_r. auto.
    + done.
    + destruct s1 as [|c1 s1]; [rewrite append_nil_l in Hs|rewrite append_cons in Hs].
      * subst s2. by apply IH2.
      * injection Hs as -> <-. constructor; auto.
Qed.

Lemma full_match_matches (r : regex) (s : string) :
  full_match r s = true ↔ matches r s.
Proof.
  revert r. induction s as [|c s IH]; intros r; cbn.
  - apply nullable_matches.
  - by rewrite IH, deriv_matches.
Qed.

Lemma matches_Class_inv (p : ascii → bool) (s : string) :
  matches (Class p) s ↔ ∃ c, s = String c "" ∧ p c = true.
Proof.
  split; [inversion 1; eauto|]. intros (c & -> & Hp). by constructor.
Qed.

Lemma matches_Cat_inv (r1 r2 : regex) (s : string) :
  matches (Cat r1 r2) s
  ↔ ∃ s1 s2, s = s1 +:+ s2 ∧ matches r1 s1 ∧ matches r2 s2.
Proof.
  split; [inversion 1; eauto|]. intros (s1 & s2 & -> & H1 & H2). by constructor.
Qed.

Lemma matches_Star_Class (p : ascii → bool) (s : string) :
  matches (Star (Class p)) s ↔ all_in p s.
Proof.
  unfold all_in. split.
  - intros H. remember (Star (Class p)) as r eqn:Hr.
    induction H as [| | | | | |r s1 s2 H1 _ H2 IH2]; try discriminate.
    + constructor.
    + injection Hr as ->. apply matches_Class_inv in H1 as (c & -> & Hp).
      rewrite append_cons, append_nil_l. constructor; auto.
  - induction s as [|c s IH]; [constructor|]. cbn. intros [Hc Hs]%Forall_cons.
    rewrite <- (append_nil_l s), <- append_cons. constructor; [by constructor|auto].
Qed.

Lemma matches_Plus_Class (p : ascii → bool) (s : string) :
  matches (Plus (Class p)) s ↔ s ≠ "" ∧ all_in p s.
Proof.
  unfold Plus. rewrite matches_Cat_inv. split.
  - intros (s1 & s2 & -> & (c & -> & Hp)%matches_Class_inv & H2%matches_Star_Class).
    rewrite append_cons, append_nil_l. split; [done|]. by constructor.
  - intros [Hne Hall]. destruct s as [|c s]; [done|].
    apply Forall_cons in Hall as [Hc Hs]. exists (String c ""), s.
    split; [done|]. split; [by constructor|by apply matches_Star_Class].
Qed.

Lemma matches_AtLeast2_Class (p : ascii → bool) (s : string) :
  matches (AtLeast2 (Class p)) s ↔ 2 ≤ String.length s ∧ all_in p s.
Proof.
  unfold AtLeast2. rewrite matches_Cat_inv. split.
  - intros (s1 & s2 & -> & (c & -> & Hp)%matches_Class_inv
            & [Hne Hall]%(matches_Plus_Class p)).
    rewrite append_cons, append_nil_l. destruct s2 as [|c2 s2]; [done|].
    split; [cbn; lia|]. by constructor.
  - intros [Hlen Hall]. destruct s as [|c [|c2 s]]; [cbn in Hlen; lia..|].
    apply Forall_cons in Hall as [Hc Hs]. exists (String c ""), (String c2 s).
    split; [done|]. split; [by constructor|].
    by apply (matches_Plus_Class p).
Qed.

Lemma one_of_single (x c : ascii) : one_of (String x "") c = true ↔ c = x.
Proof.
  unfold one_of. cbn. rewrite orb_false_r. apply Ascii.eqb_eq.
Qed.

(** X23. The email expression matches exactly the strings made of a
    local part, an [@], a domain, a dot and an ending: the local part
    and the domain are not empty and stay within their classes, the
    ending has two letters or more and only letters. *)
Theorem emailAddrRegex_matches (s : string) :
  test_emailAddrRegex (VString s) = true
  ↔ ∃ l d t, s = l +:+ "@" +:+ d +:+ "." +:+ t
             ∧ l ≠ "" ∧ all_in local_char l
             ∧ d ≠ "" ∧ all_in domain_char d
             ∧ 2 ≤ String.length t ∧ all_in alpha t.
Proof.
  cbn [test_emailAddrRegex]. rewrite full_match_matches. unfold emailAddrRegex.
  split.
  - intros (l & s1 & -> & [Hl1 Hl2]%(matches_Plus_Class local_char)
            & (a & s2 & -> & (c & -> & ->%one_of_single)%matches_Class_inv
            & (d & s3 & -> & [Hd1 Hd2]%(matches_Plus_Class domain_char)
            & (b & t & -> & (c' & -> & ->%one_of_single)%matches_Class_inv
            & [Ht1 Ht2]%matches_AtLeast2_Class)%matches_Cat_inv
              )%matches_Cat_inv)%matches_Cat_inv)%matches_Cat_inv.
    by exists l, d, t.
  - intros (l & d & t & -> & Hl1 & Hl2 & Hd1 & Hd2 & Ht1 & Ht2).
    constructor; [by apply (matches_Plus_Class local_char)|].
    constructor; [by constructor|].
    constructor; [by apply (matches_Plus_Class domain_char)|].
    constructor; [by constructor|]. by apply matches_AtLeast2_Class.
Qed.

Lemma emailAddrRegex_matches_witness :
  test_emailAddrRegex (VString "alice@example.com") = true.
Proof.
  apply emailAddrRegex_matches. exists "alice", "example", "com".
  split; [reflexivity|]. unfold all_in.
  repeat split; try done; try (cbn; lia); by repeat constructor.
Defined.

(** ** What the constructor of the set throws *)

Lemma isSWComponentsSetValid_verdict (instance type : value) :
  isSWComponentsSetValid instance type = passed
  ∨ ∃ m, m ∈ reasons ∧ isSWComponentsSetValid instance type = failed m.
Proof.
  unfold isSWComponentsSetValid, reasons.
  repeat case_match;
    first [by left | right; eexists; split; [|reflexivity]; in_list].
Qed.

(** X24. When the constructor of a component set throws, it throws an
    [Error] that carries one of the nine reasons of the validator, and
    that reason is the verdict on the components under the type of the
    widget ("basic" without a widget). *)
Theorem SWComponentsSet_constructor_Throw (comps smartWidgetInstance : value)
    (e : exn) :
  SWComponentsSet_constructor comps smartWidgetInstance = Throw e →
  ∃ m type, e = Error m ∧ m ∈ reasons
            ∧ type = match smartWidgetInstance with
                     | VSW w => sw_type w
                     | _ => "basic"
                     end
            ∧ isSWComponentsSetValid comps (VString type) = failed m.
Proof.
  unfold SWComponentsSet_constructor. cbn zeta.
  set (type := match smartWidgetInstance with
               | VSW w => VString (sw_type w)
               | _ => VString "basic"
               end).
  assert (type = VString match smartWidgetInstance with
                         | VSW w => sw_type w
                         | _ => "basic"
                         end) as Htype by (by destruct smartWidgetInstance).
  destruct (isSWComponentsSetValid_verdict comps type) as [->|(m & Hm & Hf)];
    [discriminate|].
  rewrite Hf. cbn. intros [= <-]. exists m. eexists.
  split; [done|]. split; [done|]. split; [reflexivity|]. by rewrite <- Htype.
Qed.

Lemma SWComponentsSet_constructor_Throw_witness :
  ∃ m type, Error msg_no_image = Error m ∧ m ∈ reasons
            ∧ type = "basic"
            ∧ isSWComponentsSetValid (VArray [sample_input]) (VString type)
              = failed m.
Proof.
  apply (SWComponentsSet_constructor_Throw (VArray [sample_input]) VUndefined).
  reflexivity.
Defined.
